(** * GeeCache: LRU engine, consistent-hash ring, single-flight and the
      group load pipeline, embedded from the Go sources.

    - [lru]            : [geecache/lru/lru.go]
    - [consistenthash] : [geecache/consistenthash/consistenthash.go]
    - [geecache]       : [byteview.go], [cache.go], [geecache.go], [peers.go]
    - [singleflight]   : [geecache/singleflight/singleflight.go]

    Go's [int]/[int64] are 64-bit two's-complement integers; they are
    carried as [Z], and the byte counter of the LRU engine passes every
    arithmetic result through [wrap64]. Slice indices and lengths are
    [nat]. Go maps are [gmap]s, strings and byte slices are byte strings
    ([string], one [ascii] per byte, so [String.length] is Go's [len]). *)

From Stdlib Require Import ZArith String Ascii List Lia Permutation.
From stdpp Require Import base tactics option list gmap strings sorting.

Local Open Scope Z_scope.

(** Two's-complement wrap-around of a 64-bit signed integer. *)
Definition wrap64 (z : Z) : Z := (z + 2 ^ 63) mod 2 ^ 64 - 2 ^ 63.

Definition int64_range (z : Z) : Prop := - 2 ^ 63 <= z < 2 ^ 63.

(** Go's [len(s)] for a string. *)
Definition len (s : string) : Z := Z.of_nat (String.length s).

(* ===================================================================== *)
(** * lru: the byte-bounded recency cache                                *)
(* ===================================================================== *)

Module lru.

(** [type Value interface { Len() int }] *)
Class Value (V : Type) := Len : V -> Z.

Section Cache.
Context {V : Type} `{Value V}.

(** State the eviction callback closes over (the test appends to a slice). *)
Context {World : Type}.

(** [type entry struct { key string; value Value }] *)
Record entry := mkEntry { key : string; value : V }.

(** What a callback closure holding the [*Cache] can read when it is
    called: the byte counter and the list. *)
Definition snapshot : Type := Z * list entry.

(** [type Cache struct]. [ll] is the doubly linked list, front first.
    [cache] maps a key to its list element; an element is identified by
    the key of the entry it carries, and the entry is kept in step with
    the list (the Go map holds a pointer to the very same element). *)
Record Cache := mkCache {
  maxBytes : Z;
  nbytes : Z;
  ll : list entry;
  cache : gmap string entry;
  OnEvicted : option (string -> V -> snapshot -> World -> World)
}.

(** [func New(maxBytes int64, onEvicted func(string, Value)) *Cache] *)
Definition New (maxBytes : Z)
    (onEvicted : option (string -> V -> snapshot -> World -> World)) : Cache :=
  {| maxBytes := maxBytes; nbytes := 0; ll := []; cache := ∅;
     OnEvicted := onEvicted |}.

(** [int64(len(kv.key)) + int64(kv.value.Len())] *)
Definition entry_bytes (k : string) (v : V) : Z := wrap64 (len k + Len v).

(** [list.Remove] of the element carrying key [k]. *)
Definition ll_remove (k : string) (l : list entry) : list entry :=
  filter (fun e => key e ≠ k) l.

(** [c.ll.MoveToFront(ele)] *)
Definition MoveToFront (e : entry) (l : list entry) : list entry :=
  e :: ll_remove (key e) l.

(** [func (c *Cache) RemoveOldest()] *)
Definition RemoveOldest (c : Cache) (w : World) : Cache * World :=
  match last (ll c) with
  | None => (c, w)
  | Some kv =>
      let c' := {| maxBytes := maxBytes c;
                   nbytes := wrap64 (nbytes c - entry_bytes (key kv) (value kv));
                   ll := removelast (ll c);
                   cache := delete (key kv) (cache c);
                   OnEvicted := OnEvicted c |} in
      match OnEvicted c with
      | Some f => (c', f (key kv) (value kv) (nbytes c', ll c') w)
      | None => (c', w)
      end
  end.

(** The loop condition [c.maxBytes != 0 && c.maxBytes < c.nbytes]. *)
Definition over_limit (c : Cache) : bool :=
  negb (maxBytes c =? 0) && (maxBytes c <? nbytes c).

(** [for c.maxBytes != 0 && c.maxBytes < c.nbytes { c.RemoveOldest() }]
    with a bound on the number of iterations; [None] when the bound is
    reached with the condition still true. *)
Fixpoint evict_loop (fuel : nat) (c : Cache) (w : World) : option (Cache * World) :=
  if over_limit c then
    match fuel with
    | O => None
    | S fuel' => let '(c', w') := RemoveOldest c w in evict_loop fuel' c' w'
    end
  else Some (c, w).

(** The [if ... else ...] of [Add]: update in place and move to the front,
    or push a new element and index it. In the update branch the entry
    object is mutated through the element pointer ([kv.value = value]), so
    the list and the map both see the new value. *)
Definition Add_insert (k : string) (v : V) (c : Cache) : Cache :=
  match cache c !! k with
  | Some ele =>
      {| maxBytes := maxBytes c;
         nbytes := wrap64 (nbytes c + wrap64 (Len v - Len (value ele)));
         ll := mkEntry (key ele) v :: ll_remove (key ele) (ll c);
         cache := <[k := mkEntry (key ele) v]> (cache c);
         OnEvicted := OnEvicted c |}
  | None =>
      {| maxBytes := maxBytes c;
         nbytes := wrap64 (nbytes c + entry_bytes k v);
         ll := mkEntry k v :: ll c;
         cache := <[k := mkEntry k v]> (cache c);
         OnEvicted := OnEvicted c |}
  end.

(** [func (c *Cache) Add(key string, value Value)]. Every iteration of the
    loop on a non-empty list removes an element, and on an empty list
    nothing changes any more, so [length ll + 1] iterations decide the
    loop: [None] is the loop that never exits (see [evict_loop_diverges]). *)
Definition Add (k : string) (v : V) (c : Cache) (w : World) : option (Cache * World) :=
  let c1 := Add_insert k v c in
  evict_loop (S (length (ll c1))) c1 w.

(** [func (c *Cache) Get(key string) (value Value, ok bool)] *)
Definition Get (k : string) (c : Cache) : option V * Cache :=
  match cache c !! k with
  | Some ele =>
      (Some (value ele),
       {| maxBytes := maxBytes c; nbytes := nbytes c;
          ll := MoveToFront ele (ll c);
          cache := cache c; OnEvicted := OnEvicted c |})
  | None => (None, c)
  end.

(** [func (c *Cache) Len() int] *)
Definition Cache_Len (c : Cache) : Z := Z.of_nat (length (ll c)).

(** A public call on the engine, and a sequence of them run in order. *)
Inductive op := OpAdd (k : string) (v : V) | OpGet (k : string)
              | OpRemoveOldest | OpLen.

Definition step (o : op) (c : Cache) (w : World) : option (Cache * World) :=
  match o with
  | OpAdd k v => Add k v c w
  | OpGet k => Some (snd (Get k c), w)
  | OpRemoveOldest => Some (RemoveOldest c w)
  | OpLen => Some (c, w)
  end.

Fixpoint run (ops : list op) (c : Cache) (w : World) : option (Cache * World) :=
  match ops with
  | [] => Some (c, w)
  | o :: ops' =>
      match step o c w with
      | Some (c', w') => run ops' c' w'
      | None => None
      end
  end.

(** Σ (len(key) + value.Len()) over the resident entries, unwrapped. *)
Definition total (l : list entry) : Z :=
  foldr (fun e acc => len (key e) + Len (value e) + acc) 0 l.

End Cache.

(** [type String string] with [func (d String) Len() int { return len(d) }],
    the value type of [lru_test.go]. *)
#[export] Instance String_Value : Value string := fun d => len d.

(** A value that reports the number it holds: [Len() int] may return any
    [int], of either sign. *)
#[export] Instance Z_Value : Value Z := fun n => n.

(** The callback of [TestOnEvicted]: [keys = append(keys, key)]. *)
Definition record_keys {V : Type} : string -> V -> snapshot (V:=V) -> list string -> list string :=
  fun key _ _ keys => keys ++ [key].

End lru.

(* ===================================================================== *)
(** * strconv, sort, hash/crc32: the library functions the ring calls     *)
(* ===================================================================== *)

Module strconv.

Definition digit_char (d : Z) : ascii := ascii_of_nat (48 + Z.to_nat d).

(** Decimal digits of [n >= 0], most significant first, in front of [acc].
    An [int] has at most 19 digits. *)
Fixpoint utoa (fuel : nat) (n : Z) (acc : string) : string :=
  match fuel with
  | O => acc
  | S fuel' =>
      let acc' := String (digit_char (n mod 10)) acc in
      if n <? 10 then acc' else utoa fuel' (n / 10) acc'
  end.

(** [strconv.Itoa]: decimal ASCII, no leading zeros, [-] for negatives. *)
Definition Itoa (i : Z) : string :=
  if i <? 0 then String "-" (utoa 20 (- i) "") else utoa 20 i "".

Definition is_digit (a : ascii) : bool :=
  let n := Z.of_nat (nat_of_ascii a) in (48 <=? n) && (n <=? 57).

Fixpoint parse_digits (s : string) (acc : Z) : option Z :=
  match s with
  | EmptyString => Some acc
  | String a s' =>
      if is_digit a
      then parse_digits s' (10 * acc + (Z.of_nat (nat_of_ascii a) - 48))
      else None
  end.

(** [i, _ := strconv.Atoi(s)]: the value alone. A syntax error gives 0, a
    range error the nearest [int]. *)
Definition Atoi (s : string) : Z :=
  let '(neg, body) :=
    match s with
    | String "+" s' => (false, s')
    | String "-" s' => (true, s')
    | _ => (false, s)
    end in
  match body with
  | EmptyString => 0
  | _ =>
      match parse_digits body 0 with
      | None => 0
      | Some n =>
          let i := if neg : bool then - n else n in
          Z.max (- 2 ^ 63) (Z.min (2 ^ 63 - 1) i)
      end
  end.

End strconv.

Module sort.

(** The loop of [sort.Search]: [for i < j { h := int(uint(i+j) >> 1);
    if !f(h) { i = h + 1 } else { j = h } }]. The interval loses at least
    one index per iteration. *)
Fixpoint search_loop (fuel : nat) (f : nat -> bool) (i j : nat) : nat :=
  match fuel with
  | O => i
  | S fuel' =>
      if (i <? j)%nat then
        let h := ((i + j) / 2)%nat in
        if negb (f h) then search_loop fuel' f (h + 1)%nat j
        else search_loop fuel' f i h
      else i
  end.

(** [sort.Search(n, f)] *)
Definition Search (n : nat) (f : nat -> bool) : nat := search_loop n f 0%nat n.

(** [sort.Ints]: the ascending rearrangement of the slice. *)
Definition Ints (l : list Z) : list Z := merge_sort Z.le l.

End sort.

Module crc32.

(** One byte of the reflected CRC-32 with polynomial 0xedb88320. *)
Definition step_bit (crc : Z) : Z :=
  if Z.testbit crc 0 then Z.lxor (Z.shiftr crc 1) 3988292384
  else Z.shiftr crc 1.

Definition update_byte (crc : Z) (a : ascii) : Z :=
  Nat.iter 8 step_bit (Z.lxor crc (Z.of_nat (nat_of_ascii a))).

Fixpoint update (crc : Z) (s : string) : Z :=
  match s with
  | EmptyString => crc
  | String a s' => update (update_byte crc a) s'
  end.

(** [crc32.ChecksumIEEE] *)
Definition ChecksumIEEE (data : string) : Z :=
  Z.lxor (update 4294967295 data) 4294967295.

End crc32.

(* ===================================================================== *)
(** * consistenthash: the ring of virtual nodes                          *)
(* ===================================================================== *)

Module consistenthash.

(** [type Hash func(data []byte) uint32]. The function is arbitrary; its
    result is a [uint32], which [uint32_of] enforces. *)
Definition Hash : Type := string -> Z.

Definition uint32_of (z : Z) : Z := z mod 2 ^ 32.

(** [type Map struct] *)
Record Map := mkMap {
  hash : Hash;
  replicas : Z;
  keys : list Z;
  hashMap : gmap Z string
}.

(** [func New(replicas int, fn Hash) *Map]; [None] is Go's [nil]. *)
Definition New (replicas : Z) (fn : option Hash) : Map :=
  {| hash := match fn with Some f => f | None => crc32.ChecksumIEEE end;
     replicas := replicas; keys := []; hashMap := ∅ |}.

(** [int(m.hash([]byte(s)))] *)
Definition hash_int (m : Map) (s : string) : Z := uint32_of (hash m s).

(** The body of the inner loop of [Add]. *)
Definition add_replica (key : string) (m : Map) (i : Z) : Map :=
  let h := hash_int m (strconv.Itoa i ++ key) in
  {| hash := hash m; replicas := replicas m;
     keys := keys m ++ [h];
     hashMap := <[h := key]> (hashMap m) |}.

(** [for i := 0; i < m.replicas; i++ { ... }] *)
Definition add_node (m : Map) (key : string) : Map :=
  foldl (add_replica key) m (seqZ 0 (replicas m)).

(** [func (m *Map) Add(keys ...string)] *)
Definition Add (ks : list string) (m : Map) : Map :=
  let m' := foldl add_node m ks in
  {| hash := hash m'; replicas := replicas m';
     keys := sort.Ints (keys m'); hashMap := hashMap m' |}.

(** [func (m *Map) Get(key string) string]. A missing map key reads as the
    zero value [""]. *)
Definition Get (m : Map) (key : string) : string :=
  if decide (length (keys m) = 0%nat) then ""
  else
    let h := hash_int m key in
    let idx := sort.Search (length (keys m))
                 (fun i => bool_decide (h <= nth i (keys m) 0)) in
    let realIdx := (idx mod length (keys m))%nat in
    default "" (hashMap m !! nth realIdx (keys m) 0).

(** Several [Add] calls in a row. *)
Definition Adds (calls : list (list string)) (m : Map) : Map :=
  foldl (fun m ks => Add ks m) m calls.

(** The hash of [consistenthash_test.go]:
    [i, _ := strconv.Atoi(string(key)); return uint32(i)]. *)
Definition decimal_hash : Hash := fun key => uint32_of (strconv.Atoi key).

End consistenthash.

(* ===================================================================== *)
(** * geecache: byte views, the cache shell and the group                *)
(* ===================================================================== *)

Module geecache.

(** [[]byte]: a byte string. *)
Definition bytes : Type := string.

(** An [error] value, by its message. *)
Definition error : Type := string.

(** How a call ends: it returns, or it panics with a message. *)
Inductive outcome (A : Type) : Type :=
  | Return (a : A)
  | Panic (msg : string).
Arguments Return {A} a.
Arguments Panic {A} msg.

(** ** byteview.go *)

(** [type ByteView struct { b []byte }] *)
Record ByteView := mkByteView { b : bytes }.

(** The zero value [ByteView{}]. *)
Definition ByteView_zero : ByteView := mkByteView "".

(** [func (v ByteView) Len() int] *)
Definition ByteView_Len (v : ByteView) : Z := len (b v).

(** [func cloneBytes(b []byte) []byte]: a copy with the same content. *)
Definition cloneBytes (x : bytes) : bytes := x.

(** [func (v ByteView) ByteSlice() []byte] *)
Definition ByteSlice (v : ByteView) : bytes := cloneBytes (b v).

(** [func (v ByteView) String() string] *)
Definition ByteView_String (v : ByteView) : string := b v.

#[export] Instance ByteView_Value : lru.Value ByteView := ByteView_Len.

(** ** cache.go *)

(** [type cache struct { mu sync.Mutex; lru *lru.Cache; cacheBytes int64 }].
    Each method runs under [mu] from its first statement to its return,
    so a method is one atomic transition of the shell. *)
Record cache := mkcache {
  lru_ : option (@lru.Cache ByteView unit);
  cacheBytes : Z
}.

(** [func (c *cache) add(key string, value ByteView)]; [None] when
    [lru.Add] does not return. *)
Definition cache_add (key : string) (value : ByteView) (c : cache) : option cache :=
  let l := match lru_ c with
           | None => lru.New (cacheBytes c) None
           | Some l => l
           end in
  match lru.Add key value l tt with
  | Some (l', _) => Some {| lru_ := Some l'; cacheBytes := cacheBytes c |}
  | None => None
  end.

(** [func (c *cache) get(key string) (value ByteView, ok bool)] *)
Definition cache_get (key : string) (c : cache) : option ByteView * cache :=
  match lru_ c with
  | None => (None, c)
  | Some l =>
      let '(v, l') := lru.Get key l in
      (v, {| lru_ := Some l'; cacheBytes := cacheBytes c |})
  end.

(** ** peers.go and geecache.go *)

Section Group.

(** Everything outside the process that a loader or a peer can read and
    change: the data source, the network, the other nodes. *)
Context {W : Type}.

(** [type Getter interface { Get(key string) ([]byte, error) }] *)
Definition Getter : Type := string -> W -> (bytes * option error) * W.

(** [type PeerGetter interface { Get(group string, key string) ([]byte, error) }] *)
Definition PeerGetter : Type := string -> string -> W -> (bytes * option error) * W.

(** [type PeerPicker interface { PickPeer(key string) (peer PeerGetter, ok bool) }];
    [Some peer] is [(peer, true)], [None] is [(nil, false)]. *)
Definition PeerPicker : Type := string -> W -> option PeerGetter * W.

(** [type Group struct] *)
Record Group := mkGroup {
  name : string;
  getter : Getter;
  mainCache : cache;
  peers : option PeerPicker
}.

Definition set_mainCache (g : Group) (c : cache) : Group :=
  {| name := name g; getter := getter g; mainCache := c; peers := peers g |}.

(** [func NewGroup(name string, cacheBytes int64, getter Getter) *Group]
    on the registry [groups]: how the call ends, and the registry after
    it. A [nil] getter is [None]; the panic comes before [mu.Lock()]. *)
Definition NewGroup (nm : string) (cacheBytes : Z) (gt : option Getter)
    (groups : gmap string Group) : outcome Group * gmap string Group :=
  match gt with
  | None => (Panic "nil Getter", groups)
  | Some gt =>
      let g := {| name := nm; getter := gt;
                  mainCache := {| lru_ := None; cacheBytes := cacheBytes |};
                  peers := None |} in
      (Return g, <[nm := g]> groups)
  end.

(** [func GetGroup(name string) *Group] *)
Definition GetGroup (nm : string) (groups : gmap string Group) : option Group :=
  groups !! nm.

(** [func (g *Group) RegisterPeers(peers PeerPicker)]: how the call
    ends, and the group after it. *)
Definition RegisterPeers (ps : PeerPicker) (g : Group) : outcome unit * Group :=
  match peers g with
  | Some _ => (Panic "RegisterPeerPicker called more than once", g)
  | None => (Return tt, {| name := name g; getter := getter g;
                           mainCache := mainCache g; peers := Some ps |})
  end.

(** What a call on a group hands back: the pair it returns, the group
    and the world after it. *)
Definition result : Type := (ByteView * option error) * Group * W.

(** [func (g *Group) populateCache(key string, value ByteView)] *)
Definition populateCache (key : string) (value : ByteView) (g : Group) : option Group :=
  match cache_add key value (mainCache g) with
  | Some c => Some (set_mainCache g c)
  | None => None
  end.

(** [func (g *Group) getLocally(key string) (ByteView, error)] *)
Definition getLocally (g : Group) (key : string) (w : W) : option result :=
  let '((bs, err), w') := getter g key w in
  match err with
  | Some e => Some ((ByteView_zero, Some e), g, w')
  | None =>
      let value := mkByteView (cloneBytes bs) in
      match populateCache key value g with
      | Some g' => Some ((value, None), g', w')
      | None => None
      end
  end.

(** [func (g *Group) getFromPeer(peer PeerGetter, key string) (ByteView, error)] *)
Definition getFromPeer (g : Group) (peer : PeerGetter) (key : string) (w : W)
    : (ByteView * option error) * W :=
  let '((bs, err), w') := peer (name g) key w in
  match err with
  | Some e => ((ByteView_zero, Some e), w')
  | None => ((mkByteView bs, None), w')
  end.

(** [func (g *Group) load(key string) (value ByteView, err error)]. The
    line written to the log when the peer fails is not part of the state. *)
Definition load (g : Group) (key : string) (w : W) : option result :=
  match peers g with
  | Some pick =>
      let '(sel, w1) := pick key w in
      match sel with
      | Some peer =>
          let '((value, err), w2) := getFromPeer g peer key w1 in
          match err with
          | None => Some ((value, None), g, w2)
          | Some _ => getLocally g key w2
          end
      | None => getLocally g key w1
      end
  | None => getLocally g key w
  end.

(** [func (g *Group) Get(key string) (ByteView, error)] *)
Definition Get (g : Group) (key : string) (w : W) : option result :=
  if decide (key = "") then
    Some ((ByteView_zero, Some "key is required"), g, w)
  else
    match cache_get key (mainCache g) with
    | (Some v, c) => Some ((v, None), set_mainCache g c, w)
    | (None, c) => load (set_mainCache g c) key w
    end.

(** ** Calls in progress

    The same [Get], cut where another goroutine can run in between: the
    two methods of the shell (each atomic under its mutex), the choice of
    a peer, the request to the peer, and the loader. *)
Inductive gpc : Type :=
  | GStart                              (* at the first line of [Get] *)
  | GLoad                               (* missed the shell; at [load] *)
  | GPeer (peer : PeerGetter)           (* at [getFromPeer(peer, key)] *)
  | GLocal                              (* at [g.getter.Get(key)] *)
  | GAdd (bs : bytes)                   (* at [populateCache] *)
  | GDone (r : ByteView * option error) (* returned *).

Definition Get_step (key : string) (pc : gpc) (g : Group) (w : W)
    : option (gpc * Group * W) :=
  match pc with
  | GStart =>
      if decide (key = "") then
        Some (GDone (ByteView_zero, Some "key is required"), g, w)
      else
        match cache_get key (mainCache g) with
        | (Some v, c) => Some (GDone (v, None), set_mainCache g c, w)
        | (None, c) => Some (GLoad, set_mainCache g c, w)
        end
  | GLoad =>
      match peers g with
      | Some pick =>
          let '(sel, w1) := pick key w in
          match sel with
          | Some peer => Some (GPeer peer, g, w1)
          | None => Some (GLocal, g, w1)
          end
      | None => Some (GLocal, g, w)
      end
  | GPeer peer =>
      let '((value, err), w2) := getFromPeer g peer key w in
      match err with
      | None => Some (GDone (value, None), g, w2)
      | Some _ => Some (GLocal, g, w2)
      end
  | GLocal =>
      let '((bs, err), w') := getter g key w in
      match err with
      | Some e => Some (GDone (ByteView_zero, Some e), g, w')
      | None => Some (GAdd bs, g, w')
      end
  | GAdd bs =>
      let value := mkByteView (cloneBytes bs) in
      match populateCache key value g with
      | Some g' => Some (GDone (value, None), g', w)
      | None => None
      end
  | GDone _ => None
  end.

(** One call run on its own from [pc] to its return. *)
Fixpoint Get_from (fuel : nat) (key : string) (pc : gpc) (g : Group) (w : W)
    : option result :=
  match pc with
  | GDone r => Some (r, g, w)
  | _ =>
      match fuel with
      | O => None
      | S fuel' =>
          match Get_step key pc g w with
          | Some (pc', g', w') => Get_from fuel' key pc' g' w'
          | None => None
          end
      end
  end.

(** Several goroutines calling [Get] on one group: the group, the world,
    and for each call its key and where it is. [gstep t] lets call [t]
    take its next step. *)
Record gstate := mkGstate {
  g_group : Group;
  g_world : W;
  g_calls : list (string * gpc)
}.

Definition gstep (t : nat) (st : gstate) : option gstate :=
  match g_calls st !! t with
  | Some (key, pc) =>
      match Get_step key pc (g_group st) (g_world st) with
      | Some (pc', g', w') =>
          Some {| g_group := g'; g_world := w';
                  g_calls := <[t := (key, pc')]> (g_calls st) |}
      | None => None
      end
  | None => None
  end.

Fixpoint grun (sched : list nat) (st : gstate) : option gstate :=
  match sched with
  | [] => Some st
  | t :: sched' =>
      match gstep t st with
      | Some st' => grun sched' st'
      | None => None
      end
  end.

End Group.

(** ** geecache_test.go *)

(** [var db = map[string]string{...}] *)
Definition db : gmap string string :=
  {[ "Tom" := "630"; "Jack" := "589"; "Sam" := "567" ]}.

(** The getter of [TestGet]; the world is its [loadCounts] map. *)
Definition counting_getter : @Getter (gmap string nat) :=
  fun key loadCounts =>
    match db !! key with
    | Some v => ((v, None), <[key := S (default 0%nat (loadCounts !! key))]> loadCounts)
    | None => (("", Some (key ++ " not exist")%string), loadCounts)
    end.

(** [gee := NewGroup("scores", 2<<10, GetterFunc(...))] *)
Definition gee : @Group (gmap string nat) :=
  {| name := "scores"; getter := counting_getter;
     mainCache := {| lru_ := None; cacheBytes := 2048 |}; peers := None |}.

(** A peer that answers every request with an error, and a picker that
    always selects it. *)
Definition failing_peer {W : Type} : @PeerGetter W :=
  fun _ _ w => (("", Some "server returned: 500 Internal Server Error"), w).

Definition always_pick {W : Type} (p : @PeerGetter W) : @PeerPicker W :=
  fun _ w => (Some p, w).

End geecache.

(* ===================================================================== *)
(** * singleflight: one execution per key at a time                      *)
(* ===================================================================== *)

Module singleflight.

Section Do.

(** [R] is the pair [(interface{}, error)] that [fn] returns, [zero] the
    pair [(nil, nil)] a new [call] holds; [W] is what [fn] reads and
    changes. *)
Context {R W : Type}.
Variable zero : R.

(** [type call struct { wg sync.WaitGroup; val interface{}; err error }];
    [wg] is the counter of the wait group. *)
Record call := mkCall { wg : Z; res : R }.

(** Where a goroutine is inside [Do]; [c] is its [*call]. *)
Inductive pc : Type :=
  | Enter                  (* at the first [g.mu.Lock()] *)
  | Locked                 (* holds [mu]; at the lazy [make] and the lookup *)
  | Hit (c : nat)          (* holds [mu]; found [c]; at [g.mu.Unlock()] *)
  | Waiting (c : nat)      (* at [c.wg.Wait()] *)
  | Miss                   (* holds [mu]; found nothing; at [new(call)] *)
  | Inserted (c : nat)     (* holds [mu]; [g.m[key] = c] done; at [Unlock] *)
  | Calling (c : nat)      (* at [c.val, c.err = fn()] *)
  | Finishing (c : nat)    (* at [c.wg.Done()] *)
  | Relock (c : nat)       (* at the second [g.mu.Lock()] *)
  | Deleting (c : nat)     (* holds [mu]; at [delete(g.m, key)] *)
  | Deleted (c : nat)      (* holds [mu]; at the last [g.mu.Unlock()] *)
  | Returning (c : nat)    (* at [return c.val, c.err] *)
  | Done (c : nat) (r : R) (* returned [r], read from call [c] *).

(** A goroutine in [Do(key, fn)]. *)
Record caller := mkCaller {
  c_key : string;
  c_fn : W -> R * W;
  c_pc : pc
}.

Definition at_pc (th : caller) (p : pc) : caller :=
  {| c_key := c_key th; c_fn := c_fn th; c_pc := p |}.

(** [type Group struct { mu sync.Mutex; m map[string]*call }] with the
    calls it points to ([heap], a [*call] is an index), the world, the
    goroutines, and two records kept for the proofs: every execution of
    a [fn] with the call it was for and what it returned ([runs]), and
    the number of [delete]s done ([deleted]). *)
Record state := mkState {
  mu : bool;
  m : option (gmap string nat);
  heap : list call;
  world : W;
  callers : list caller;
  runs : list (nat * R);
  deleted : nat
}.

Definition set_pc (t : nat) (th : caller) (p : pc) (st : state) : list caller :=
  <[t := at_pc th p]> (callers st).

(** Goroutine [t] takes its next step; [None] when it is blocked (on the
    mutex or the wait group) or has returned. *)
Definition step (t : nat) (st : state) : option state :=
  match callers st !! t with
  | None => None
  | Some th =>
      match c_pc th with
      | Enter =>
          if mu st then None
          else Some {| mu := true; m := m st; heap := heap st; world := world st;
                       callers := set_pc t th Locked st;
                       runs := runs st; deleted := deleted st |}
      | Locked =>
          let mp := default ∅ (m st) in
          Some {| mu := mu st; m := Some mp; heap := heap st; world := world st;
                  callers := set_pc t th
                               (match mp !! c_key th with
                                | Some c => Hit c
                                | None => Miss
                                end) st;
                  runs := runs st; deleted := deleted st |}
      | Hit c =>
          Some {| mu := false; m := m st; heap := heap st; world := world st;
                  callers := set_pc t th (Waiting c) st;
                  runs := runs st; deleted := deleted st |}
      | Waiting c =>
          match heap st !! c with
          | Some cl =>
              if decide (wg cl = 0) then
                Some {| mu := mu st; m := m st; heap := heap st; world := world st;
                        callers := set_pc t th (Returning c) st;
                        runs := runs st; deleted := deleted st |}
              else None
          | None => None
          end
      | Miss =>
          let c := length (heap st) in
          Some {| mu := mu st;
                  m := Some (<[c_key th := c]> (default ∅ (m st)));
                  heap := heap st ++ [mkCall 1 zero]; world := world st;
                  callers := set_pc t th (Inserted c) st;
                  runs := runs st; deleted := deleted st |}
      | Inserted c =>
          Some {| mu := false; m := m st; heap := heap st; world := world st;
                  callers := set_pc t th (Calling c) st;
                  runs := runs st; deleted := deleted st |}
      | Calling c =>
          let '(r, w') := c_fn th (world st) in
          Some {| mu := mu st; m := m st;
                  heap := alter (fun cl => mkCall (wg cl) r) c (heap st);
                  world := w';
                  callers := set_pc t th (Finishing c) st;
                  runs := runs st ++ [(c, r)]; deleted := deleted st |}
      | Finishing c =>
          Some {| mu := mu st; m := m st;
                  heap := alter (fun cl => mkCall (wg cl - 1) (res cl)) c (heap st);
                  world := world st;
                  callers := set_pc t th (Relock c) st;
                  runs := runs st; deleted := deleted st |}
      | Relock c =>
          if mu st then None
          else Some {| mu := true; m := m st; heap := heap st; world := world st;
                       callers := set_pc t th (Deleting c) st;
                       runs := runs st; deleted := deleted st |}
      | Deleting c =>
          Some {| mu := mu st; m := delete (c_key th) <$> m st;
                  heap := heap st; world := world st;
                  callers := set_pc t th (Deleted c) st;
                  runs := runs st; deleted := S (deleted st) |}
      | Deleted c =>
          Some {| mu := false; m := m st; heap := heap st; world := world st;
                  callers := set_pc t th (Returning c) st;
                  runs := runs st; deleted := deleted st |}
      | Returning c =>
          match heap st !! c with
          | Some cl =>
              Some {| mu := mu st; m := m st; heap := heap st; world := world st;
                      callers := set_pc t th (Done c (res cl)) st;
                      runs := runs st; deleted := deleted st |}
          | None => None
          end
      | Done _ _ => None
      end
  end.

(** A schedule: which goroutine moves next, step after step. *)
Fixpoint run (sched : list nat) (st : state) : option state :=
  match sched with
  | [] => Some st
  | t :: sched' =>
      match step t st with
      | Some st' => run sched' st'
      | None => None
      end
  end.

(** A zero [Group] and the goroutines about to call [Do(key, fn)], one
    for each [fn] of the list. *)
Definition init (key : string) (fns : list (W -> R * W)) (w : W) : state :=
  {| mu := false; m := None; heap := []; world := w;
     callers := (fun f => mkCaller key f Enter) <$> fns;
     runs := []; deleted := 0 |}.

End Do.

End singleflight.

(* ===================================================================== *)
(** * Facts about 64-bit wrap-around                                     *)
(* ===================================================================== *)

Lemma wrap64_range z : int64_range (wrap64 z).
Proof.
  unfold int64_range, wrap64.
  pose proof (Z.mod_pos_bound (z + 2 ^ 63) (2 ^ 64) ltac:(lia)). lia.
Qed.

Lemma wrap64_small z : int64_range z -> wrap64 z = z.
Proof.
  unfold int64_range, wrap64. intros Hz.
  rewrite Z.mod_small; lia.
Qed.

Lemma wrap64_spec z : exists q, wrap64 z = z + q * 2 ^ 64.
Proof.
  exists (- ((z + 2 ^ 63) / 2 ^ 64)). unfold wrap64.
  pose proof (Z.div_mod (z + 2 ^ 63) (2 ^ 64) ltac:(lia)). lia.
Qed.

Lemma wrap64_shift z q : wrap64 (z + q * 2 ^ 64) = wrap64 z.
Proof.
  unfold wrap64.
  replace (z + q * 2 ^ 64 + 2 ^ 63) with (z + 2 ^ 63 + q * 2 ^ 64) by lia.
  by rewrite Z.mod_add by lia.
Qed.

Lemma wrap64_add_l a b : wrap64 (wrap64 a + b) = wrap64 (a + b).
Proof.
  destruct (wrap64_spec a) as [q ->].
  replace (a + q * 2 ^ 64 + b) with (a + b + q * 2 ^ 64) by lia.
  apply wrap64_shift.
Qed.

Lemma wrap64_add_r a b : wrap64 (a + wrap64 b) = wrap64 (a + b).
Proof. rewrite (Z.add_comm a), wrap64_add_l. f_equal; lia. Qed.

Lemma wrap64_sub_r a b : wrap64 (a - wrap64 b) = wrap64 (a - b).
Proof.
  destruct (wrap64_spec b) as [q ->].
  replace (a - (b + q * 2 ^ 64)) with (a - b + (- q) * 2 ^ 64) by lia.
  apply wrap64_shift.
Qed.

Lemma wrap64_sub_l a b : wrap64 (wrap64 a - b) = wrap64 (a - b).
Proof.
  destruct (wrap64_spec a) as [q ->].
  replace (a + q * 2 ^ 64 - b) with (a - b + q * 2 ^ 64) by lia.
  apply wrap64_shift.
Qed.

Lemma len_nonneg s : 0 <= len s.
Proof. unfold len. lia. Qed.

(* ===================================================================== *)
(** * lru: representation invariants                                     *)
(* ===================================================================== *)

(** Reduce the projections of a record literal, and nothing else. *)
Ltac fields :=
  cbn [lru.nbytes lru.ll lru.cache lru.maxBytes lru.OnEvicted lru.key lru.value
       fst snd].

Section lru_theory.
Import lru.
Context {V : Type} `{Value V} {World : Type}.

Abbreviation CacheT := (@Cache V World).
Abbreviation entryT := (@entry V).

Implicit Types (c : CacheT) (w : World) (e : entryT) (l : list entryT)
  (k : string) (v : V).

(** The byte counter is the (wrapped) sum over the list. *)
Definition bytes_ok c : Prop := nbytes c = wrap64 (total (ll c)).

(** No key occurs twice in the list. *)
Definition keys_nodup c : Prop := NoDup (key <$> ll c).

(** The map and the list hold the same entries under the same keys. *)
Definition index_ok c : Prop :=
  forall k e, cache c !! k = Some e <-> e ∈ ll c /\ key e = k.

Record Inv c : Prop := mkInv {
  inv_bytes : bytes_ok c;
  inv_nodup : keys_nodup c;
  inv_index : index_ok c
}.

Lemma total_cons e l : total (e :: l) = len (key e) + Len (value e) + total l.
Proof. reflexivity. Qed.

Lemma total_app l1 l2 : total (l1 ++ l2) = total l1 + total l2.
Proof.
  induction l1 as [|e l1 IH]; [simpl; lia|].
  rewrite <- app_comm_cons, !total_cons, IH. lia.
Qed.

Lemma total_perm l1 l2 : l1 ≡ₚ l2 -> total l1 = total l2.
Proof.
  induction 1; rewrite ?total_cons in *; lia.
Qed.

Lemma ll_remove_notin k l : k ∉ key <$> l -> ll_remove k l = l.
Proof.
  unfold ll_remove. induction l as [|e l IH]; [done|].
  rewrite fmap_cons, not_elem_of_cons. intros [Hne Hl].
  rewrite filter_cons_True by done. by rewrite IH.
Qed.

Lemma ll_remove_perm e l :
  NoDup (key <$> l) -> e ∈ l -> l ≡ₚ e :: ll_remove (key e) l.
Proof.
  unfold ll_remove. induction l as [|x l IH]; intros Hnd Hin.
  - by apply elem_of_nil in Hin.
  - rewrite fmap_cons in Hnd. apply NoDup_cons in Hnd as [Hx Hnd].
    apply elem_of_cons in Hin as [->|Hin].
    + rewrite filter_cons_False by (intros Hc; by apply Hc).
      fold (ll_remove (key x) l). by rewrite ll_remove_notin.
    + assert (key x ≠ key e) as Hne.
      { intros Heq. apply Hx. rewrite Heq. by apply list_elem_of_fmap_2. }
      rewrite filter_cons_True by done.
      rewrite (IH Hnd Hin) at 1. apply Permutation_swap.
Qed.

Lemma ll_remove_keys k l : k ∉ key <$> ll_remove k l.
Proof.
  unfold ll_remove. intros (e & -> & He)%list_elem_of_fmap.
  apply list_elem_of_filter in He as [Hne _]. by apply Hne.
Qed.

Lemma ll_remove_elem e k l : e ∈ ll_remove k l <-> e ∈ l /\ key e ≠ k.
Proof. unfold ll_remove. rewrite list_elem_of_filter. tauto. Qed.

Lemma ll_remove_nodup k l : NoDup (key <$> l) -> NoDup (key <$> ll_remove k l).
Proof.
  unfold ll_remove. induction l as [|x l IH]; [done|].
  rewrite fmap_cons, NoDup_cons. intros [Hx Hnd].
  destruct (decide (key x ≠ k)).
  - rewrite filter_cons_True by done. rewrite fmap_cons, NoDup_cons.
    split; [|by apply IH].
    intros (e & Heq & He)%list_elem_of_fmap.
    apply list_elem_of_filter in He as [_ He].
    apply Hx. rewrite Heq. by apply list_elem_of_fmap_2.
  - rewrite filter_cons_False by done. by apply IH.
Qed.

Lemma last_split l e : last l = Some e -> l = removelast l ++ [e].
Proof.
  intros Hl. apply last_Some in Hl as [l' Hl]. subst l. by rewrite removelast_last.
Qed.

Lemma Inv_New m cb : Inv (New (World:=World) m cb).
Proof.
  split.
  - unfold bytes_ok. simpl. by rewrite wrap64_small by (unfold int64_range; lia).
  - unfold keys_nodup. simpl. apply NoDup_nil_2.
  - intros k e. simpl. rewrite lookup_empty, elem_of_nil. split; [done | tauto].
Qed.

Lemma Inv_RemoveOldest c w : Inv c -> Inv (RemoveOldest c w).1.
Proof.
  intros [Hb Hn Hi]. unfold RemoveOldest.
  destruct (last (ll c)) as [kv|] eqn:Hlast; [|done].
  apply last_split in Hlast.
  set (l' := removelast (ll c)) in *.
  assert (Inv {| maxBytes := maxBytes c;
                 nbytes := wrap64 (nbytes c - entry_bytes (key kv) (value kv));
                 ll := l'; cache := delete (key kv) (cache c);
                 OnEvicted := OnEvicted c |}) as HI.
  { unfold keys_nodup in Hn. rewrite Hlast, fmap_app in Hn.
    apply NoDup_app in Hn as (Hn1 & Hn2 & _).
    split.
    - unfold bytes_ok in *. fields. rewrite Hb, Hlast, total_app, total_cons.
      change (total []) with 0. unfold entry_bytes.
      rewrite wrap64_sub_r, wrap64_sub_l. f_equal. lia.
    - done.
    - intros k e. fields. rewrite lookup_delete_Some, (Hi k e), Hlast.
      rewrite elem_of_app, list_elem_of_singleton. split.
      + intros (Hne & [He | ->] & Hk); [done | congruence].
      + intros [He Hk]. split_and!; [|by left|done].
        intros Heq. apply (Hn2 (key kv)).
        * rewrite Heq, <- Hk. by apply list_elem_of_fmap_2.
        * fields. apply list_elem_of_singleton. done. }
  by destruct (OnEvicted c).
Qed.

Lemma Inv_Get k c : Inv c -> Inv (Get k c).2.
Proof.
  intros [Hb Hn Hi]. unfold Get.
  destruct (cache c !! k) as [ele|] eqn:Hk; [|done]. fields.
  apply Hi in Hk as [Hin Hkey].
  pose proof (ll_remove_perm ele (ll c) Hn Hin) as Hp.
  split.
  - unfold bytes_ok in *. fields. unfold MoveToFront. by rewrite <- (total_perm _ _ Hp).
  - unfold keys_nodup, MoveToFront in *. fields. by rewrite <- Hp.
  - intros k' e. fields. unfold MoveToFront. rewrite (Hi k' e). by rewrite <- Hp.
Qed.

Lemma index_absent k c : Inv c -> cache c !! k = None -> k ∉ key <$> ll c.
Proof.
  intros [_ _ Hi] Hnone (e & -> & He)%list_elem_of_fmap.
  assert (cache c !! key e = Some e) as Hs by (by apply Hi).
  congruence.
Qed.

Lemma total_Add_insert k v c :
  Inv c ->
  total (ll (Add_insert k v c)) =
    match cache c !! k with
    | Some ele => total (ll c) + (Len v - Len (value ele))
    | None => total (ll c) + (len k + Len v)
    end.
Proof.
  intros HI. pose proof HI as [Hb Hn Hi]. unfold Add_insert.
  destruct (cache c !! k) as [ele|] eqn:Hk; fields.
  - apply Hi in Hk as [Hin Hkey].
    rewrite (total_perm _ _ (ll_remove_perm ele (ll c) Hn Hin)).
    rewrite !total_cons. fields. lia.
  - rewrite total_cons. fields. lia.
Qed.

Lemma Inv_Add_insert k v c : Inv c -> Inv (Add_insert k v c).
Proof.
  intros HI. pose proof HI as [Hb Hn Hi].
  split.
  - unfold bytes_ok. rewrite total_Add_insert by done. unfold Add_insert.
    destruct (cache c !! k) as [ele|] eqn:Hk; fields; rewrite Hb.
    + by rewrite wrap64_add_r, wrap64_add_l.
    + unfold entry_bytes. by rewrite wrap64_add_r, wrap64_add_l.
  - unfold keys_nodup, Add_insert.
    destruct (cache c !! k) as [ele|] eqn:Hk; fields.
    + apply NoDup_cons. split; [apply ll_remove_keys | by apply ll_remove_nodup].
    + apply NoDup_cons. split; [by apply index_absent | done].
  - intros k' e. unfold Add_insert.
    destruct (cache c !! k) as [ele|] eqn:Hk; fields.
    + apply Hi in Hk as [Hin Hkey]. subst k.
      rewrite lookup_insert_Some, elem_of_cons, ll_remove_elem, (Hi k' e).
      split.
      * intros [[<- <-] | (Hne & He & Hk')]; [by split; [left|] | ].
        split; [right; split; [done | congruence] | done].
      * intros [[-> | [He Hne]] Hk']; [left; by split | right].
        split_and!; [congruence | done | done].
    + rewrite lookup_insert_Some, elem_of_cons, (Hi k' e).
      split.
      * intros [[<- <-] | (Hne & He & Hk')]; [by split; [left|] | by split; [right|]].
      * intros [[-> | He] Hk']; [left; by split | right].
        split_and!; [|done|done].
        intros ->. apply (index_absent _ _ HI Hk).
        rewrite <- Hk'. by apply list_elem_of_fmap_2.
Qed.

(** ** [RemoveOldest] *)

Lemma RemoveOldest_nil c w : ll c = [] -> RemoveOldest c w = (c, w).
Proof. intros Hl. unfold RemoveOldest. by rewrite Hl. Qed.

Lemma RemoveOldest_snoc c w l e :
  ll c = l ++ [e] ->
  RemoveOldest c w =
    (let c' := {| maxBytes := maxBytes c;
                  nbytes := wrap64 (nbytes c - entry_bytes (key e) (value e));
                  ll := l; cache := delete (key e) (cache c);
                  OnEvicted := OnEvicted c |} in
     (c', match OnEvicted c with
          | Some f => f (key e) (value e) (nbytes c', ll c') w
          | None => w
          end)).
Proof.
  intros Hl. unfold RemoveOldest. rewrite Hl, last_snoc, removelast_last.
  by destruct (OnEvicted c).
Qed.

Lemma list_snoc_inv l : l = [] \/ exists l' e, l = l' ++ [e].
Proof.
  destruct l as [|x l] using rev_ind; [by left | right; eauto].
Qed.

Lemma RemoveOldest_maxBytes c w : maxBytes (RemoveOldest c w).1 = maxBytes c.
Proof.
  destruct (list_snoc_inv (ll c)) as [Hl | (l & e & Hl)].
  - by rewrite RemoveOldest_nil.
  - by rewrite (RemoveOldest_snoc _ _ _ _ Hl).
Qed.

Lemma RemoveOldest_OnEvicted c w : OnEvicted (RemoveOldest c w).1 = OnEvicted c.
Proof.
  destruct (list_snoc_inv (ll c)) as [Hl | (l & e & Hl)].
  - by rewrite RemoveOldest_nil.
  - by rewrite (RemoveOldest_snoc _ _ _ _ Hl).
Qed.

(** ** The eviction loop *)

Lemma evict_loop_stop n c w : over_limit c = false -> evict_loop n c w = Some (c, w).
Proof. intros Ho. destruct n; simpl; by rewrite Ho. Qed.

Lemma evict_loop_go n c w :
  over_limit c = true ->
  evict_loop (S n) c w = evict_loop n (RemoveOldest c w).1 (RemoveOldest c w).2.
Proof. intros Ho. simpl. rewrite Ho. by destruct (RemoveOldest c w). Qed.

(** Whatever [RemoveOldest] preserves while the limit is exceeded holds
    when the loop exits, and the limit is then respected. *)
Lemma evict_loop_inv (P : CacheT -> Prop) :
  (forall c w, P c -> over_limit c = true -> P (RemoveOldest c w).1) ->
  forall n c w c' w',
    P c -> evict_loop n c w = Some (c', w') -> P c' /\ over_limit c' = false.
Proof.
  intros HP n. induction n as [|n IH]; intros c w c' w' Hc Hrun.
  - simpl in Hrun. destruct (over_limit c) eqn:Ho; [done|].
    by simplify_eq.
  - destruct (over_limit c) eqn:Ho.
    + rewrite evict_loop_go in Hrun by done. eapply IH; [|done]. by apply HP.
    + rewrite evict_loop_stop in Hrun by done. by simplify_eq.
Qed.

(** More iterations allowed never change a result already reached. *)
Lemma evict_loop_mono n m c w r :
  evict_loop n c w = Some r -> (n <= m)%nat -> evict_loop m c w = Some r.
Proof.
  revert m c w. induction n as [|n IH]; intros m c w Hrun Hle.
  - simpl in Hrun. destruct (over_limit c) eqn:Ho; [done|].
    by rewrite evict_loop_stop.
  - destruct (over_limit c) eqn:Ho.
    + destruct m as [|m]; [lia|].
      rewrite evict_loop_go in * by done. apply IH; [done | lia].
    + rewrite evict_loop_stop in * by done. done.
Qed.

(** On an empty list [RemoveOldest] changes nothing, so a condition that
    is still true stays true for ever. *)
Lemma evict_loop_stuck n c w :
  ll c = [] -> over_limit c = true -> evict_loop n c w = None.
Proof.
  intros Hl Ho. induction n as [|n IH]; simpl; rewrite Ho; [done|].
  by rewrite RemoveOldest_nil.
Qed.

(** The bound used by [Add] is enough: if it is reached, no bound is. *)
Lemma evict_loop_diverges n c w :
  (length (ll c) < n)%nat -> evict_loop n c w = None ->
  forall m, evict_loop m c w = None.
Proof.
  revert c w. induction n as [|n IH]; intros c w Hlen Hrun m; [lia|].
  destruct (over_limit c) eqn:Ho; [|by rewrite evict_loop_stop in Hrun].
  rewrite evict_loop_go in Hrun by done.
  destruct (list_snoc_inv (ll c)) as [Hl | (l & e & Hl)].
  - by apply evict_loop_stuck.
  - destruct m as [|m]; [simpl; by rewrite Ho|].
    rewrite evict_loop_go by done. apply IH; [|done].
    rewrite (RemoveOldest_snoc _ _ _ _ Hl). fields.
    rewrite Hl, length_app in Hlen. simpl in Hlen. lia.
Qed.

(** With a non-negative limit the loop always exits. *)
Lemma evict_loop_terminates n c w :
  Inv c -> 0 <= maxBytes c -> (length (ll c) < n)%nat ->
  is_Some (evict_loop n c w).
Proof.
  revert c w. induction n as [|n IH]; intros c w HI Hm Hlen; [lia|].
  destruct (over_limit c) eqn:Ho; [|rewrite evict_loop_stop by done; eauto].
  rewrite evict_loop_go by done.
  destruct (list_snoc_inv (ll c)) as [Hl | (l & e & Hl)].
  - exfalso. destruct HI as [Hb _ _]. unfold bytes_ok in Hb.
    rewrite Hl in Hb. simpl in Hb. rewrite wrap64_small in Hb
      by (unfold int64_range; lia).
    unfold over_limit in Ho. rewrite Hb in Ho.
    apply andb_true_iff in Ho as [_ Ho]. lia.
  - apply IH.
    + by apply Inv_RemoveOldest.
    + by rewrite RemoveOldest_maxBytes.
    + rewrite (RemoveOldest_snoc _ _ _ _ Hl). fields.
      rewrite Hl, length_app in Hlen. simpl in Hlen. lia.
Qed.

(** ** States whose byte count has not wrapped *)

Definition nonneg_entries l : Prop := Forall (fun e => 0 <= Len (value e)) l.

Record sane c : Prop := mkSane {
  sane_inv : Inv c;
  sane_nonneg : nonneg_entries (ll c);
  sane_range : total (ll c) < 2 ^ 63
}.

Lemma total_nonneg l : nonneg_entries l -> 0 <= total l.
Proof.
  induction 1 as [|e l He _ IH]; [done|].
  rewrite total_cons. pose proof (len_nonneg (key e)). lia.
Qed.

Lemma sane_nbytes c : sane c -> nbytes c = total (ll c).
Proof.
  intros [[Hb _ _] Hn Hr]. rewrite Hb. apply wrap64_small.
  pose proof (total_nonneg _ Hn). unfold int64_range. lia.
Qed.

Lemma sane_New m cb : sane (New (World:=World) m cb).
Proof.
  split; [apply Inv_New | apply Forall_nil_2 | simpl; lia].
Qed.

Lemma RemoveOldest_total c w :
  nonneg_entries (ll c) ->
  nonneg_entries (ll (RemoveOldest c w).1) /\
  total (ll (RemoveOldest c w).1) <= total (ll c).
Proof.
  intros Hn. destruct (list_snoc_inv (ll c)) as [Hl | (l & e & Hl)].
  - rewrite RemoveOldest_nil by done. fields. split; [done | lia].
  - rewrite (RemoveOldest_snoc _ _ _ _ Hl). fields.
    rewrite Hl in *. apply Forall_app in Hn as [Hn1 Hn2].
    split; [done|]. rewrite total_app.
    pose proof (total_nonneg _ Hn2). lia.
Qed.

Lemma sane_RemoveOldest c w : sane c -> sane (RemoveOldest c w).1.
Proof.
  intros [HI Hn Hr]. destruct (RemoveOldest_total c w Hn) as [Hn' Ht].
  split; [by apply Inv_RemoveOldest | done | lia].
Qed.

Lemma Get_ll k c :
  Inv c -> ll (Get k c).2 ≡ₚ ll c.
Proof.
  intros [_ Hn Hi]. unfold Get.
  destruct (cache c !! k) as [ele|] eqn:Hk; [|done]. fields.
  apply Hi in Hk as [Hin _]. unfold MoveToFront.
  symmetry. by apply ll_remove_perm.
Qed.

Lemma Get_fields k c :
  maxBytes (Get k c).2 = maxBytes c /\ nbytes (Get k c).2 = nbytes c /\
  cache (Get k c).2 = cache c /\ OnEvicted (Get k c).2 = OnEvicted c.
Proof. unfold Get. by destruct (cache c !! k). Qed.

Lemma sane_Get k c : sane c -> sane (Get k c).2.
Proof.
  intros [HI Hn Hr]. pose proof (Get_ll k c HI) as Hp.
  split; [by apply Inv_Get | |].
  - unfold nonneg_entries. by rewrite Hp.
  - by rewrite (total_perm _ _ Hp).
Qed.

Lemma Add_insert_fields k v c :
  maxBytes (Add_insert k v c) = maxBytes c /\
  OnEvicted (Add_insert k v c) = OnEvicted c.
Proof. unfold Add_insert. by destruct (cache c !! k). Qed.

Lemma Add_insert_nonneg k v c :
  nonneg_entries (ll c) -> 0 <= Len v -> nonneg_entries (ll (Add_insert k v c)).
Proof.
  intros Hn Hv. unfold Add_insert, nonneg_entries in *.
  destruct (cache c !! k) as [ele|]; fields.
  - apply Forall_cons. split; [done|].
    rewrite Forall_forall in *. intros e He.
    apply ll_remove_elem in He as [He _]. by apply Hn.
  - by apply Forall_cons.
Qed.

Lemma Add_insert_total_le k v c :
  Inv c -> nonneg_entries (ll c) ->
  total (ll (Add_insert k v c)) <= total (ll c) + (len k + Len v).
Proof.
  intros HI Hn. rewrite total_Add_insert by done.
  destruct (cache c !! k) as [ele|] eqn:Hk; [|lia].
  apply (inv_index _ HI) in Hk as [Hin _].
  unfold nonneg_entries in Hn. rewrite Forall_forall in Hn.
  pose proof (Hn _ Hin). pose proof (len_nonneg k). lia.
Qed.

Lemma sane_Add_insert k v c :
  sane c -> 0 <= Len v -> total (ll c) + (len k + Len v) < 2 ^ 63 ->
  sane (Add_insert k v c).
Proof.
  intros [HI Hn Hr] Hv Hb.
  split; [by apply Inv_Add_insert | by apply Add_insert_nonneg |].
  pose proof (Add_insert_total_le k v c HI Hn). lia.
Qed.

Lemma over_limit_false c :
  over_limit c = false <-> (maxBytes c = 0 \/ nbytes c <= maxBytes c).
Proof.
  unfold over_limit. rewrite andb_false_iff, negb_false_iff, Z.eqb_eq, Z.ltb_ge.
  tauto.
Qed.

(** [Add] returns on a sane state with a non-negative limit, and what it
    returns is sane and within the limit. *)
Lemma Add_sane k v c w :
  sane c -> 0 <= maxBytes c -> 0 <= Len v ->
  total (ll c) + (len k + Len v) < 2 ^ 63 ->
  exists c' w',
    Add k v c w = Some (c', w') /\ sane c' /\ maxBytes c' = maxBytes c /\
    OnEvicted c' = OnEvicted c /\
    total (ll c') <= total (ll c) + (len k + Len v) /\
    over_limit c' = false.
Proof.
  intros Hs Hm Hv Hb. unfold Add.
  pose proof (sane_Add_insert k v c Hs Hv Hb) as Hs1.
  destruct (Add_insert_fields k v c) as [Hm1 Hcb1].
  pose proof (Add_insert_total_le k v c (sane_inv _ Hs) (sane_nonneg _ Hs)) as Ht1.
  set (c1 := Add_insert k v c) in *.
  destruct (evict_loop_terminates (S (length (ll c1))) c1 w) as [[c' w'] Hrun];
    [apply Hs1 | lia | lia |].
  exists c', w'. split; [done|].
  pose (P := fun x : CacheT =>
    sane x /\ maxBytes x = maxBytes c /\ OnEvicted x = OnEvicted c /\
    total (ll x) <= total (ll c) + (len k + Len v)).
  destruct (evict_loop_inv P) with (n := S (length (ll c1))) (c := c1) (w := w)
    (c' := c') (w' := w') as [(? & ? & ? & ?) ?]; [| done | done | done].
  intros x wx (Hsx & Hmx & Hcx & Htx) _.
  destruct (RemoveOldest_total x wx (sane_nonneg _ Hsx)) as [_ Hle].
  split_and!; [by apply sane_RemoveOldest | by rewrite RemoveOldest_maxBytes
              | by rewrite RemoveOldest_OnEvicted | lia].
Qed.

(** ** Sequences of calls *)

Lemma run_Inv ops : forall c w c' w',
  Inv c -> run ops c w = Some (c', w') -> Inv c'.
Proof.
  induction ops as [|o ops IH]; intros c w c' w' HI Hrun; simpl in Hrun.
  - by simplify_eq.
  - destruct (step o c w) as [[c1 w1]|] eqn:Hstep; [|done].
    eapply IH; [|done]. destruct o; simpl in Hstep.
    + unfold Add in Hstep.
      eapply (evict_loop_inv Inv); [| |done].
      * intros. by apply Inv_RemoveOldest.
      * by apply Inv_Add_insert.
    + simplify_eq. by apply Inv_Get.
    + simplify_eq. pose proof (Inv_RemoveOldest c w HI) as HI'.
      by rewrite Hstep in HI'.
    + by simplify_eq.
Qed.

(** ** Where [Add] leaves the entry it was given *)

Lemma head_snoc {A} (l : list A) (x y : A) :
  head (l ++ [x]) = Some y -> l = [] \/ head l = Some y.
Proof. destruct l; simpl; eauto. Qed.

Lemma Add_insert_head k v c :
  Inv c -> head (ll (Add_insert k v c)) = Some (mkEntry k v).
Proof.
  intros HI. unfold Add_insert.
  destruct (cache c !! k) as [ele|] eqn:Hk; fields; [|done].
  apply (inv_index _ HI) in Hk as [_ Hkey]. simpl. by rewrite Hkey.
Qed.

(** The loop only takes elements from the back: the entry just added is
    at the front until it is the last one to go. *)
Lemma Add_head_or_empty k v c w c' w' :
  Inv c -> Add k v c w = Some (c', w') ->
  ll c' = [] \/ head (ll c') = Some (mkEntry k v).
Proof.
  intros HI Hadd. unfold Add in Hadd.
  pose (P := fun x : CacheT => ll x = [] \/ head (ll x) = Some (mkEntry k v)).
  destruct (evict_loop_inv P) with (n := S (length (ll (Add_insert k v c))))
    (c := Add_insert k v c) (w := w) (c' := c') (w' := w') as [HP _];
    [ | right; by apply Add_insert_head | done | done].
  intros x wx Hx _. unfold P in *.
  destruct (list_snoc_inv (ll x)) as [Hl | (l & e & Hl)].
  - rewrite RemoveOldest_nil by done. by left.
  - rewrite (RemoveOldest_snoc _ _ _ _ Hl). fields.
    destruct Hx as [Hx | Hx]; [rewrite Hx in Hl; by destruct l|].
    rewrite Hl in Hx. by apply head_snoc in Hx.
Qed.

Lemma head_total e l : head l = Some e -> nonneg_entries l ->
  len (key e) + Len (value e) <= total l.
Proof.
  destruct l as [|x l]; [done|]. intros [= ->] Hn.
  apply Forall_cons in Hn as [_ Hn]. rewrite total_cons.
  pose proof (total_nonneg _ Hn). lia.
Qed.

(** An entry larger than a positive limit takes everything down with it. *)
Lemma Add_oversize k v c w :
  sane c -> 0 < maxBytes c -> 0 <= Len v ->
  total (ll c) + (len k + Len v) < 2 ^ 63 ->
  maxBytes c < len k + Len v ->
  exists c' w',
    Add k v c w = Some (c', w') /\ ll c' = [] /\ cache c' = ∅ /\ nbytes c' = 0 /\
    maxBytes c' = maxBytes c.
Proof.
  intros Hs Hm Hv Hb Hbig.
  destruct (Add_sane k v c w) as (c' & w' & Hadd & Hs' & Hm' & _ & _ & Ho');
    [done | lia | done | done |].
  exists c', w'. split; [done|].
  assert (ll c' = []) as Hnil.
  { destruct (Add_head_or_empty k v c w c' w' (sane_inv _ Hs) Hadd) as [|Hh];
      [done|].
    exfalso. apply over_limit_false in Ho'.
    pose proof (head_total _ _ Hh (sane_nonneg _ Hs')) as Hle. simpl in Hle.
    rewrite (sane_nbytes _ Hs') in Ho'. lia. }
  split_and!; [done | | | done].
  - apply map_eq. intros k'. rewrite lookup_empty.
    apply eq_None_not_Some. intros [e He].
    apply (inv_index _ (sane_inv _ Hs')) in He as [He _].
    rewrite Hnil in He. by apply elem_of_nil in He.
  - rewrite (sane_nbytes _ Hs'), Hnil. done.
Qed.

(** An entry that fits keeps its place, whatever else the engine holds
    and whatever the counter has come to: the loop takes from the back,
    and when the new entry is the only one left the counter is its size,
    which is within the limit. *)
Lemma Add_fits k v c w c' w' :
  Inv c ->
  maxBytes c = 0 \/ - 2 ^ 63 <= len k + Len v <= maxBytes c ->
  Add k v c w = Some (c', w') ->
  head (ll c') = Some (mkEntry k v).
Proof.
  intros HI Hfit Hadd. unfold Add in Hadd.
  pose (P := fun x : CacheT =>
    Inv x /\ maxBytes x = maxBytes c /\ head (ll x) = Some (mkEntry k v)).
  destruct (evict_loop_inv P) with (n := S (length (ll (Add_insert k v c))))
    (c := Add_insert k v c) (w := w) (c' := c') (w' := w') as [(_ & _ & Hh) _];
    [ | | done | done].
  - intros x wx (HIx & Hmx & Hhx) Hover. unfold P.
    split_and!; [by apply Inv_RemoveOldest | by rewrite RemoveOldest_maxBytes |].
    destruct (list_snoc_inv (ll x)) as [Hl | (l & e & Hl)];
      [by rewrite Hl in Hhx|].
    rewrite (RemoveOldest_snoc _ _ _ _ Hl). fields.
    rewrite Hl in Hhx. destruct l as [|y l]; [|done].
    exfalso. simpl in Hl, Hhx. simplify_eq.
    assert (over_limit x = false) as Hfalse; [|congruence].
    apply over_limit_false. rewrite Hmx, (inv_bytes _ HIx), Hl.
    rewrite total_cons. fields. change (total []) with 0.
    destruct Hfit as [? | [Hlo Hhi]]; [by left | right].
    replace (len k + Len v + 0) with (len k + Len v) by lia.
    destruct (decide (len k + Len v < 2 ^ 63)) as [Hlt | Hge].
    + rewrite wrap64_small by (unfold int64_range; lia). done.
    + pose proof (wrap64_range (len k + Len v)) as Hr.
      unfold int64_range in Hr. lia.
  - split_and!; [by apply Inv_Add_insert | apply Add_insert_fields
                | by apply Add_insert_head].
Qed.

(** ** Calls the counter can follow *)

(** On an engine with limit [m]: a value's [Len] is not negative, and the
    size of the entry on top of a full engine is below 2^63. *)
Definition sized_op (m : Z) (o : op (V:=V)) : Prop :=
  match o with
  | OpAdd k v => 0 <= Len v /\ m + (len k + Len v) < 2 ^ 63
  | _ => True
  end.

(** Sane, with the limit [m] in force. *)
Definition within (m : Z) c : Prop :=
  sane c /\ maxBytes c = m /\ over_limit c = false.

Lemma within_total m c : 0 < m -> within m c -> total (ll c) <= m.
Proof.
  intros Hm (Hs & Hmc & Ho). apply over_limit_false in Ho.
  rewrite (sane_nbytes _ Hs) in Ho. lia.
Qed.

Lemma within_New m cb : 0 < m -> within m (New (World:=World) m cb).
Proof.
  intros Hm. split_and!; [apply sane_New | done |].
  apply over_limit_false. simpl. lia.
Qed.

Lemma step_within m o c w :
  0 < m -> within m c -> sized_op m o ->
  exists c1 w1, step o c w = Some (c1, w1) /\ within m c1 /\
                OnEvicted c1 = OnEvicted c.
Proof.
  intros Hm Hw Hop. pose proof (within_total m c Hm Hw) as Ht.
  destruct Hw as (Hs & Hmc & Ho).
  unfold within. destruct o as [k v|k| |]; simpl in *.
  - destruct Hop as [Hv Hb].
    destruct (Add_sane k v c w) as (c1 & w1 & Hadd & Hs1 & Hm1 & Hcb1 & _ & Ho1);
      [done | lia | done | lia |].
    exists c1, w1. split_and!; try done. congruence.
  - destruct (Get_fields k c) as (? & Hnb & ? & ?).
    exists (Get k c).2, w. split_and!; try done.
    + by apply sane_Get.
    + congruence.
    + apply over_limit_false. apply over_limit_false in Ho. lia.
  - destruct (RemoveOldest c w) as [c1 w1] eqn:Hr.
    pose proof (sane_RemoveOldest c w Hs) as Hs1.
    pose proof (RemoveOldest_maxBytes c w) as Hm1.
    pose proof (RemoveOldest_OnEvicted c w) as Hcb1.
    destruct (RemoveOldest_total c w (sane_nonneg _ Hs)) as [_ Hle].
    rewrite Hr in *. simpl in *.
    exists c1, w1. split_and!; try done; [congruence|].
    apply over_limit_false. rewrite (sane_nbytes _ Hs1). lia.
  - by exists c, w.
Qed.

Lemma run_within m ops : forall c w,
  0 < m -> within m c -> Forall (sized_op m) ops ->
  exists c' w',
    run ops c w = Some (c', w') /\ within m c' /\ OnEvicted c' = OnEvicted c.
Proof.
  induction ops as [|o ops IH]; intros c w Hm Hw Hf.
  - by exists c, w.
  - apply Forall_cons in Hf as [Hop Hf].
    destruct (step_within m o c w Hm Hw Hop) as (c1 & w1 & Hstep & Hw1 & Hcb1).
    destruct (IH c1 w1 Hm Hw1 Hf) as (c' & w' & Hrun & Hw' & Hcb').
    exists c', w'. split_and!; [simpl; by rewrite Hstep | done | congruence].
Qed.

End lru_theory.

(* ===================================================================== *)
(** * lru: the properties of the specification                           *)
(* ===================================================================== *)

Section lru_claims.
Import lru.

(** With the recording callback, the keys are reported from the back of
    the list to the front. *)
Lemma evict_everything {V : Type} `{Value V} (k : string) (v : V) :
  forall l (x : @Cache V (list string)) keys n,
  sane x -> ll x = mkEntry k v :: l -> 0 < maxBytes x ->
  maxBytes x < len k + Len v -> OnEvicted x = Some record_keys ->
  (length (ll x) < n)%nat ->
  exists c', evict_loop n x keys =
               Some (c', keys ++ rev (key <$> (mkEntry k v :: l))) /\
             ll c' = [].
Proof.
  induction l as [|e l IH] using rev_ind; intros x keys n Hs Hl Hm Hbig Hcb Hn.
  - assert (over_limit x = true) as Ho.
    { apply not_false_iff_true. rewrite over_limit_false.
      rewrite (sane_nbytes _ Hs), Hl, total_cons. simpl.
      change (total []) with 0. lia. }
    destruct n as [|n]; [lia|]. rewrite evict_loop_go by done.
    rewrite (RemoveOldest_snoc x keys [] (mkEntry k v)) by done. fields.
    rewrite Hcb. unfold record_keys at 1. fields.
    eexists. split; [apply evict_loop_stop | reflexivity].
    apply over_limit_false. fields. right.
    rewrite (sane_nbytes _ Hs), Hl, total_cons. fields. change (total []) with 0.
    unfold entry_bytes. rewrite wrap64_sub_r, wrap64_small;
      unfold int64_range; lia.
  - assert (over_limit x = true) as Ho.
    { apply not_false_iff_true. rewrite over_limit_false.
      rewrite (sane_nbytes _ Hs), Hl, total_cons. simpl.
      pose proof (sane_nonneg _ Hs) as Hnn. rewrite Hl in Hnn.
      apply Forall_cons in Hnn as [_ Hnn]. pose proof (total_nonneg _ Hnn). lia. }
    destruct n as [|n]; [lia|]. rewrite evict_loop_go by done.
    pose proof (sane_RemoveOldest x keys Hs) as Hs1.
    pose proof (RemoveOldest_maxBytes x keys) as Hm1.
    pose proof (RemoveOldest_OnEvicted x keys) as Hcb1.
    rewrite (RemoveOldest_snoc x keys (mkEntry k v :: l) e) in * by done.
    cbn [nbytes ll cache maxBytes OnEvicted fst snd] in *.
    rewrite Hcb in Hs1 |- *.
    match goal with |- context [evict_loop n ?y ?ks] =>
      set (x1 := y) in *; change ks with (keys ++ [key e]) end.
    destruct (IH x1 (keys ++ [key e]) n) as (c' & Hrun & Hnil);
      [done | done | simpl; lia | simpl; lia | done | |].
    { rewrite Hl in Hn. simpl in Hn. rewrite length_app in Hn. simpl in *. lia. }
    exists c'. split; [|done]. rewrite Hrun. f_equal. f_equal.
    rewrite <- app_assoc. f_equal.
    rewrite app_comm_cons, fmap_app, rev_app_distr. done.
Qed.


Lemma reach_Inv {V : Type} `{Value V} {World : Type} m cb (w0 : World)
    (ops : list (op (V:=V))) c w :
  run ops (New m cb) w0 = Some (c, w) -> Inv c.
Proof. apply run_Inv, Inv_New. Qed.

(** C2 as stated fails: "every sequence" includes values whose [Len] is
    negative and sizes that make the [int64] counter wrap, and after
    either the counter can end above the limit. With [maxBytes = 1]:
    [Add("a", v)] with [v.Len() = -5], [Add("bb", v')] with
    [v'.Len() = 3], [RemoveOldest()] leaves [nbytes = 5]; with
    [v.Len() = 2^63 - 1] and ["bbb"], [nbytes = 6]. *)
Lemma C2_counterexample :
  (exists c,
      run [OpAdd "a" (-5); OpAdd "bb" 3; OpRemoveOldest] (@New Z unit 1 None) tt
        = Some (c, tt) /\
      maxBytes c = 1 /\ nbytes c = 5 /\ ~ nbytes c <= maxBytes c) /\
  (exists c,
      run [OpAdd "a" (2 ^ 63 - 1); OpAdd "bbb" 3; OpRemoveOldest]
          (@New Z unit 1 None) tt = Some (c, tt) /\
      maxBytes c = 1 /\ nbytes c = 6 /\ ~ nbytes c <= maxBytes c).
Proof.
  split; (eexists; split; [vm_compute; reflexivity|]);
    (split_and!; [reflexivity | reflexivity |
                  intros Hle; vm_compute in Hle; by apply Hle]).
Qed.

(** C2 (capacity), amended. On an engine created with [maxBytes > 0],
    for every sequence of [Add], [Get], [RemoveOldest] and [Len] calls in
    which each [Add] has [value.Len() >= 0] and
    [maxBytes + len(key) + value.Len() < 2^63], every prefix of the
    sequence returns, and when it has returned [nbytes <= maxBytes] --
    also when a single entry is larger than [maxBytes]. *)
Theorem C2_capacity {V : Type} `{Value V} {World : Type} :
  forall (m : Z) cb (w0 : World) (ops : list (op (V:=V))) (n : nat),
    0 < m -> Forall (sized_op m) ops ->
    exists c w,
      run (take n ops) (New m cb) w0 = Some (c, w) /\
      maxBytes c = m /\ nbytes c <= maxBytes c.
Proof.
  intros m cb w0 ops n Hm Hf.
  destruct (run_within m (take n ops) (New m cb) w0)
    as (c & w & Hrun & (Hs & Hmc & Ho) & _);
    [done | by apply within_New | by apply Forall_take |].
  exists c, w. split_and!; [done | done |].
  apply over_limit_false in Ho. lia.
Qed.

Lemma C2_capacity_witness :
  exists c w,
    run (take 2 [OpAdd "k1" "v1"; OpAdd "key" "a-long-value"; OpGet "k1"])
        (New 5 None) tt = Some (c, w) /\
    maxBytes c = 5 /\ nbytes c <= maxBytes c.
Proof.
  apply (C2_capacity 5 None tt
           [OpAdd "k1" "v1"; OpAdd "key" "a-long-value"; OpGet "k1"] 2).
  - lia.
  - repeat constructor; by vm_compute.
Defined.

(** C3 (bytes accounting). After any sequence of calls on an engine,
    [nbytes] is the sum of [len(key) + value.Len()] over the entries in the
    list (as an [int64], and the plain sum whenever that fits an [int64]),
    and the map indexes exactly these entries. After [Add("key","1")] and
    [Add("key","111")] with [maxBytes = 0], [nbytes] is 6. *)
Theorem C3_bytes_accounting :
  (forall (V : Type) (HV : Value V) (World : Type) m cb (w0 : World)
          (ops : list (op (V:=V))) c w,
      run ops (New m cb) w0 = Some (c, w) ->
      nbytes c = wrap64 (total (ll c)) /\
      (int64_range (total (ll c)) -> nbytes c = total (ll c)) /\
      (forall k e, cache c !! k = Some e <-> e ∈ ll c /\ key e = k)) /\
  (exists c,
      run [OpAdd "key" "1"; OpAdd "key" "111"] (New 0 None) tt = Some (c, tt) /\
      nbytes c = 6 /\
      nbytes c = len "key" + len "111" /\
      ll c = [mkEntry "key" "111"]).
Proof.
  split.
  - intros V HV World m cb w0 ops c w Hrun.
    destruct (reach_Inv _ _ _ _ _ _ Hrun) as [Hb Hn Hi].
    split_and!; [done | | done].
    intros Hr. rewrite Hb. by apply wrap64_small.
  - eexists. split; [by vm_compute|]. by vm_compute.
Qed.

Lemma C3_bytes_accounting_witness :
  let c := {| maxBytes := 0; nbytes := 6; ll := [mkEntry "key" "111"];
              cache := {[ "key" := mkEntry "key" "111" ]};
              OnEvicted := @None (string -> string -> snapshot -> unit -> unit) |} in
  nbytes c = wrap64 (total (ll c)) /\
  (int64_range (total (ll c)) -> nbytes c = total (ll c)) /\
  (forall k e, cache c !! k = Some e <-> e ∈ ll c /\ key e = k).
Proof.
  apply (proj1 C3_bytes_accounting string String_Value unit 0 None tt
           [OpAdd "key" "1"; OpAdd "key" "111"] _ tt).
  by vm_compute.
Defined.

Lemma Get_head {V : Type} `{Value V} {World : Type} k v (c c' : @Cache V World) :
  Inv c -> Get k c = (Some v, c') ->
  head (ll c') = Some (mkEntry k v) /\ ll c' ≡ₚ ll c /\ nbytes c' = nbytes c.
Proof.
  intros HI Hget. pose proof (Get_ll k c HI) as Hp. unfold Get in *.
  destruct (cache c !! k) as [ele|] eqn:Hk; [|done].
  apply (inv_index _ HI) in Hk as [_ Hkey]. simplify_eq.
  cbn [ll snd] in Hp. split_and!; [by destruct ele | done | done].
Qed.

(** The limit and the callback are set once, by [New]. *)
Lemma run_fields {V : Type} `{Value V} {World : Type} (ops : list (op (V:=V))) :
  forall (c0 : @Cache V World) w0 c w,
    run ops c0 w0 = Some (c, w) ->
    maxBytes c = maxBytes c0 /\ OnEvicted c = OnEvicted c0.
Proof.
  induction ops as [|o ops IH]; intros c0 w0 c w Hr; simpl in Hr.
  - by simplify_eq.
  - destruct (step o c0 w0) as [[c1 w1]|] eqn:Hstep; [|done].
    apply IH in Hr as [-> ->]. destruct o; simpl in Hstep.
    + unfold Add in Hstep.
      pose (P := fun x : @Cache V World =>
        maxBytes x = maxBytes c0 /\ OnEvicted x = OnEvicted c0).
      eapply (evict_loop_inv P); [| |done].
      * intros x wx [Hx1 Hx2] _.
        split; [by rewrite RemoveOldest_maxBytes
               | by rewrite RemoveOldest_OnEvicted].
      * apply Add_insert_fields.
    + simplify_eq. destruct (Get_fields k c0) as (? & _ & _ & ?). done.
    + pose proof (RemoveOldest_maxBytes c0 w0).
      pose proof (RemoveOldest_OnEvicted c0 w0).
      injection Hstep as Hstep. rewrite Hstep in *. done.
    + by simplify_eq.
Qed.

(** C9 as stated fails: an entry larger than [maxBytes] is not at the head
    after its own [Add] -- it is not in the engine at all. *)
Lemma C9_counterexample :
  exists c',
    Add "key" "value" (New 5 None) tt = Some (c', tt) /\
    head (ll c') = None /\
    head (ll c') <> Some (mkEntry "key" "value") /\
    (Get "key" c').1 = None.
Proof. eexists. split; [by vm_compute|]. by vm_compute. Qed.

(** C9 (recency), amended. On every engine reached from [New]:
    - after [Add(k,v)] the list is empty or the entry [(k,v)] is at its
      head; it is at the head whenever [maxBytes = 0] and whenever
      [len(k) + v.Len() <= maxBytes] (the sum being an [int64]), so the
      list is empty only when [maxBytes != 0] and
      [len(k) + v.Len() > maxBytes];
    - after a [Get(k)] that hits, the entry for [k] is at the head, the
      other entries and [nbytes] are as before;
    - [RemoveOldest] on a list [l ++ [e]] leaves [l], unindexes [key e],
      subtracts its size, and only then calls the callback, which is
      handed [(key e, value e)] and sees the updated engine; on an empty
      list it does nothing;
    - adding ("key1","123456"), ("k2","k2"), ("k3","k3"), ("k4","k4") with
      [maxBytes = 10] and the recording callback reports ["key1"; "k2"]. *)
Theorem C9_recency :
  (forall (V : Type) (HV : Value V) (World : Type) m cb (w0 : World)
          (ops : list (op (V:=V))) c w,
      run ops (New m cb) w0 = Some (c, w) ->
      (forall k v c' w', Add k v c w = Some (c', w') ->
          (ll c' = [] \/ head (ll c') = Some (mkEntry k v)) /\
          (m = 0 -> head (ll c') = Some (mkEntry k v)) /\
          (- 2 ^ 63 <= len k + Len v <= m ->
           head (ll c') = Some (mkEntry k v)) /\
          (ll c' = [] ->
           m <> 0 /\ (m < len k + Len v \/ len k + Len v < - 2 ^ 63))) /\
      (forall k v c', Get k c = (Some v, c') ->
          head (ll c') = Some (mkEntry k v) /\ ll c' ≡ₚ ll c /\
          nbytes c' = nbytes c) /\
      (forall l e, ll c = l ++ [e] ->
          exists c',
            RemoveOldest c w =
              (c', match cb with
                   | Some f => f (key e) (value e) (nbytes c', ll c') w
                   | None => w
                   end) /\
            ll c' = l /\ (e ∉ l) /\ cache c' = delete (key e) (cache c) /\
            cache c' !! key e = None /\
            nbytes c' = wrap64 (nbytes c - entry_bytes (key e) (value e))) /\
      (ll c = [] -> RemoveOldest c w = (c, w))) /\
  (snd <$> run [OpAdd "key1" "123456"; OpAdd "k2" "k2"; OpAdd "k3" "k3";
                OpAdd "k4" "k4"] (New 10 (Some record_keys)) []
   = Some ["key1"; "k2"]).
Proof.
  split; [|by vm_compute].
  intros V HV World m cb w0 ops c w Hrun.
  pose proof (reach_Inv _ _ _ _ _ _ Hrun) as HI.
  destruct (run_fields _ _ _ _ _ Hrun) as [Hm Hcb]. simpl in Hm, Hcb.
  split_and!.
  - intros k v c' w' Hadd. split_and!.
    + by eapply Add_head_or_empty.
    + intros ->. unfold Add in Hadd. rewrite evict_loop_stop in Hadd.
      * simplify_eq. by apply Add_insert_head.
      * apply over_limit_false. left.
        by rewrite (proj1 (Add_insert_fields k v c)).
    + intros Hfit.
      apply (Add_fits k v c w c' w'); [done | right; by rewrite Hm | done].
    + intros Hnil.
      assert (head (ll c') <> Some (mkEntry k v)) as Hh by (by rewrite Hnil).
      assert (m <> 0) as Hm0.
      { intros Hz. apply Hh.
        apply (Add_fits k v c w c' w'); [done | left; by rewrite Hm | done]. }
      split; [done|].
      destruct (decide (m < len k + Len v)) as [? | Hle]; [by left | right].
      destruct (decide (len k + Len v < - 2 ^ 63)) as [? | Hge]; [done|].
      exfalso. apply Hh.
      apply (Add_fits k v c w c' w'); [done | right; rewrite Hm; lia | done].
  - intros k v c' Hget. by apply Get_head.
  - intros l e Hl. rewrite (RemoveOldest_snoc _ _ _ _ Hl). rewrite Hcb.
    eexists. split; [reflexivity|]. fields.
    pose proof (inv_nodup _ HI) as Hnd. unfold keys_nodup in Hnd.
    rewrite Hl, fmap_app in Hnd. apply NoDup_app in Hnd as (_ & Hnd & _).
    split_and!; [done | | done | by rewrite lookup_delete_eq | done].
    intros He. apply (Hnd (key e)); [by apply list_elem_of_fmap_2|].
    simpl. by apply list_elem_of_singleton.
  - apply RemoveOldest_nil.
Qed.

Lemma C9_recency_witness :
  exists c',
    Get "k1" (@mkCache string unit 0 4 [mkEntry "k2" ""; mkEntry "k1" ""]
                {[ "k1" := mkEntry "k1" ""; "k2" := mkEntry "k2" "" ]} None)
      = (Some "", c') /\
    head (ll c') = Some (mkEntry "k1" "").
Proof.
  set (c := @mkCache string unit 0 4 [mkEntry "k2" ""; mkEntry "k1" ""]
              {[ "k1" := mkEntry "k1" ""; "k2" := mkEntry "k2" "" ]} None).
  assert (run [OpAdd "k1" ""; OpAdd "k2" ""] (New 0 None) tt = Some (c, tt))
    as Hrun by (vm_compute; reflexivity).
  destruct (proj1 C9_recency string String_Value unit 0 None tt _ c tt Hrun)
    as (_ & Hget & _).
  eexists. split; [vm_compute; reflexivity|].
  apply (Hget "k1" ""). vm_compute; reflexivity.
Defined.

(** C10 as stated fails when an earlier value had a negative [Len]: with
    [maxBytes = 5], after [Add("a", v)] with [v.Len() = -10] the counter
    is [-9], and [Add("key", v')] with [v'.Len() = 10], an absent key of
    size 13, brings it to 4: nothing is evicted, both entries stay and
    [Get("key")] hits. *)
Lemma C10_counterexample :
  exists c c',
    run [OpAdd "a" (-10)] (@New Z unit 5 None) tt = Some (c, tt) /\
    cache c !! "key" = None /\ maxBytes c < len "key" + Len 10 /\
    Add "key" 10 c tt = Some (c', tt) /\
    ll c' = [mkEntry "key" 10; mkEntry "a" (-10)] /\
    nbytes c' = 4 /\ (Get "key" c').1 = Some 10.
Proof.
  do 2 eexists. split; [vm_compute; reflexivity|].
  split; [vm_compute; reflexivity|]. split; [by vm_compute|].
  split; [vm_compute; reflexivity|]. split_and!; by vm_compute.
Qed.

(** C10 (oversized [Add]), amended. On an engine with [maxBytes > 0]
    reached by calls in which each [Add] has [value.Len() >= 0] and
    [maxBytes + len(key) + value.Len() < 2^63], an [Add(key, value)] of
    that kind with a key not present and
    [len(key) + value.Len() > maxBytes] returns and leaves no entry, an
    empty index and [nbytes = 0], so a [Get(key)] right after it misses.
    The loop evicts the older entries from the back of the list and the
    new entry last: the recording callback receives the old keys in
    reverse list order, then [key]. *)
Theorem C10_oversized_add :
  (forall (V : Type) (HV : Value V) (World : Type) m cb (w0 : World)
          (ops : list (op (V:=V))) c w k v,
      0 < m -> Forall (sized_op m) (ops ++ [OpAdd k v]) ->
      run ops (New m cb) w0 = Some (c, w) ->
      cache c !! k = None -> m < len k + Len v ->
      exists c' w',
        Add k v c w = Some (c', w') /\
        ll c' = [] /\ cache c' = ∅ /\ Cache_Len c' = 0 /\ nbytes c' = 0 /\
        Get k c' = (None, c')) /\
  (forall (V : Type) (HV : Value V) m keys0 (ops : list (op (V:=V))) c keys k v,
      0 < m -> Forall (sized_op m) (ops ++ [OpAdd k v]) ->
      run ops (New m (Some record_keys)) keys0 = Some (c, keys) ->
      cache c !! k = None -> m < len k + Len v ->
      exists c',
        Add k v c keys = Some (c', keys ++ rev (key <$> ll c) ++ [k])).
Proof.
  split.
  - intros V HV World m cb w0 ops c w k v Hm Hf Hrun Hk Hbig.
    apply Forall_app in Hf as [Hf Hv]. rewrite Forall_singleton in Hv.
    destruct Hv as [Hv Hb].
    destruct (run_within m ops (New m cb) w0)
      as (c0 & w1 & Hrun0 & Hw & _); [done | by apply within_New | done |].
    rewrite Hrun in Hrun0. simplify_eq.
    pose proof (within_total m c0 Hm Hw) as Ht. destruct Hw as (Hs & Hmc & _).
    destruct (Add_oversize k v c0 w1) as (c' & w' & Hadd & Hl & Hc & Hn & _);
      [done | lia | done | lia | lia |].
    exists c', w'. split_and!; try done.
    + unfold Cache_Len. by rewrite Hl.
    + unfold Get. by rewrite Hc, lookup_empty.
  - intros V HV m keys0 ops c keys k v Hm Hf Hrun Hk Hbig.
    apply Forall_app in Hf as [Hf Hv]. rewrite Forall_singleton in Hv.
    destruct Hv as [Hv Hb].
    destruct (run_within m ops (New m (Some record_keys)) keys0)
      as (c0 & w1 & Hrun0 & Hw & Hcb); [done | by apply within_New | done |].
    rewrite Hrun in Hrun0. simplify_eq. cbn [New OnEvicted] in Hcb.
    pose proof (within_total m c0 Hm Hw) as Ht. destruct Hw as (Hs & Hmc & _).
    unfold Add.
    assert (Add_insert k v c0 =
            {| maxBytes := maxBytes c0;
               nbytes := wrap64 (nbytes c0 + entry_bytes k v);
               ll := mkEntry k v :: ll c0; cache := <[k := mkEntry k v]> (cache c0);
               OnEvicted := OnEvicted c0 |}) as Hins
      by (unfold Add_insert; by rewrite Hk).
    destruct (evict_everything k v (ll c0) (Add_insert k v c0) w1
                (S (length (ll (Add_insert k v c0))))) as (c' & Hrun' & _).
    + apply sane_Add_insert; [done | done | lia].
    + by rewrite Hins.
    + rewrite (proj1 (Add_insert_fields k v c0)). lia.
    + rewrite (proj1 (Add_insert_fields k v c0)). lia.
    + by rewrite (proj2 (Add_insert_fields k v c0)).
    + lia.
    + exists c'. rewrite Hrun'. reflexivity.
Qed.

Lemma C10_oversized_add_witness :
  exists c' w',
    Add "key" "a-long-value"
        (@mkCache string unit 5 4 [mkEntry "k1" "v1"]
           {[ "k1" := mkEntry "k1" "v1" ]} None) tt = Some (c', w') /\
    ll c' = [] /\ cache c' = ∅ /\ Cache_Len c' = 0 /\ nbytes c' = 0 /\
    Get "key" c' = (None, c').
Proof.
  apply (proj1 C10_oversized_add string String_Value unit 5 None tt
           [OpAdd "k1" "v1"]).
  - lia.
  - repeat constructor; by vm_compute.
  - vm_compute; reflexivity.
  - vm_compute; reflexivity.
  - by vm_compute.
Defined.

End lru_claims.

(* ===================================================================== *)
(** * sort: binary search and sorting                                    *)
(* ===================================================================== *)

Section sort_theory.
Import sort.

Lemma half_bounds (i j : nat) : (i < j)%nat -> (i <= (i + j) / 2 < j)%nat.
Proof.
  intros Hij. pose proof (Nat.div_mod_eq (i + j) 2) as Hd.
  pose proof (Nat.mod_upper_bound (i + j) 2 ltac:(lia)). lia.
Qed.

(** [r] is the first index below [n] where [f] is true, or [n]. *)
Definition first_true (n : nat) (f : nat -> bool) (r : nat) : Prop :=
  (r <= n)%nat /\ (forall a, (a < r)%nat -> f a = false) /\
  (forall a, (r <= a < n)%nat -> f a = true).

(** On a predicate that is false and then true, the loop narrows [i, j]
    onto the first index where it is true. *)
Lemma search_loop_spec (n : nat) (f : nat -> bool) :
  (forall a b, (a <= b < n)%nat -> f a = true -> f b = true) ->
  forall fuel i j,
    (j - i <= fuel)%nat -> (i <= j <= n)%nat ->
    (forall a, (a < i)%nat -> f a = false) ->
    (forall a, (j <= a < n)%nat -> f a = true) ->
    first_true n f (search_loop fuel f i j).
Proof.
  intros Hmono fuel. unfold first_true.
  induction fuel as [|fuel IH]; intros i j Hfuel Hij Hlo Hhi.
  - simpl. assert (i = j) as -> by lia. split_and!; [lia | done | done].
  - cbn [search_loop]. destruct (Nat.ltb_spec i j) as [Hlt | Hge].
    + pose proof (half_bounds i j Hlt) as Hh.
      set (h := ((i + j) / 2)%nat) in *.
      destruct (f h) eqn:Hfh; cbn [negb].
      * apply IH; [lia | lia | done |].
        intros a Ha. destruct (decide (j <= a)%nat); [apply Hhi; lia|].
        apply (Hmono h a); [lia | done].
      * apply IH; [lia | lia | | done].
        intros a Ha. destruct (f a) eqn:Hfa; [|done].
        rewrite <- Hfh. symmetry. apply (Hmono a h); [lia | done].
    + assert (i = j) as -> by lia. split_and!; [lia | done | done].
Qed.

Lemma Search_spec (n : nat) (f : nat -> bool) :
  (forall a b, (a <= b < n)%nat -> f a = true -> f b = true) ->
  first_true n f (Search n f).
Proof.
  intros Hmono. unfold Search.
  apply (search_loop_spec n f Hmono n 0%nat n); [lia | lia | lia | lia].
Qed.

Lemma Ints_perm l : Ints l ≡ₚ l.
Proof. apply merge_sort_Permutation. Qed.

Lemma Ints_sorted l : Sorted Z.le (Ints l).
Proof. apply (Sorted_merge_sort Z.le). Qed.

(** There is one ascending rearrangement of a list of integers: what
    [sort.Ints] returns does not depend on the order it is given. *)
Lemma Ints_unique l1 l2 : l1 ≡ₚ l2 -> Ints l1 = Ints l2.
Proof.
  intros Hp. apply (Sorted_unique Z.le); [apply Ints_sorted..|].
  by rewrite !Ints_perm.
Qed.

Lemma Ints_idem_app l1 l2 : Ints (Ints l1 ++ l2) = Ints (l1 ++ l2).
Proof. apply Ints_unique. by rewrite Ints_perm. Qed.

Lemma sorted_nth (l : list Z) (a b : nat) :
  Sorted Z.le l -> (a <= b < length l)%nat -> nth a l 0 <= nth b l 0.
Proof.
  intros Hs%(Sorted_StronglySorted Z.le). revert a b.
  induction Hs as [|x l Hs IH Hx]; intros a b Hab; simpl in Hab; [lia|].
  destruct a as [|a], b as [|b]; simpl; try lia.
  - rewrite Forall_forall in Hx. apply Hx, list_elem_of_In, nth_In. lia.
  - apply IH. lia.
Qed.

End sort_theory.

(* ===================================================================== *)
(** * consistenthash: what [Add] builds and what [Get] finds             *)
(* ===================================================================== *)

Section ring_theory.
Import consistenthash.

(** The virtual nodes created for a list of node ids, in creation order:
    the hash of [Itoa(i) + id] paired with [id], for [i] below [replicas]. *)
Definition vnodes (hf : Hash) (r : Z) (ids : list string) : list (Z * string) :=
  ids ≫= (fun id =>
    (fun i => (uint32_of (hf (strconv.Itoa i ++ id)%string), id)) <$> seqZ 0 r).

(** [m.hashMap[hash] = key] *)
Definition put (mp : gmap Z string) (p : Z * string) : gmap Z string :=
  <[p.1 := p.2]> mp.

(** No virtual-node hash is shared by two different node ids. *)
Definition collision_free (hf : Hash) (r : Z) (ids : list string) : Prop :=
  forall p q, p ∈ vnodes hf r ids -> q ∈ vnodes hf r ids -> p.1 = q.1 -> p.2 = q.2.

Lemma vnodes_app hf r ids1 ids2 :
  vnodes hf r (ids1 ++ ids2) = vnodes hf r ids1 ++ vnodes hf r ids2.
Proof. apply bind_app. Qed.

Lemma vnodes_perm hf r ids1 ids2 :
  ids1 ≡ₚ ids2 -> vnodes hf r ids1 ≡ₚ vnodes hf r ids2.
Proof. intros Hp. unfold vnodes. by rewrite Hp. Qed.

Lemma vnodes_node hf r ids p : p ∈ vnodes hf r ids -> p.2 ∈ ids.
Proof.
  unfold vnodes. rewrite list_elem_of_bind. intros (id & Hp & Hid).
  apply list_elem_of_fmap in Hp as (i & -> & _). done.
Qed.

Lemma add_replicas_spec key idxs : forall m,
  let m' := foldl (add_replica key) m idxs in
  hash m' = hash m /\ replicas m' = replicas m /\
  keys m' = keys m ++ ((fun i => hash_int m (strconv.Itoa i ++ key)) <$> idxs) /\
  hashMap m' =
    foldl put (hashMap m)
      ((fun i => (hash_int m (strconv.Itoa i ++ key), key)) <$> idxs).
Proof.
  induction idxs as [|i idxs IH]; intros m; cbn zeta.
  - simpl. by rewrite app_nil_r.
  - cbn [foldl]. destruct (IH (add_replica key m i)) as (Hh & Hr & Hk & Hm).
    cbn zeta in *. rewrite Hh, Hr, Hk, Hm. unfold hash_int. simpl.
    rewrite <- app_assoc. done.
Qed.

Lemma add_nodes_spec ks : forall m,
  let m' := foldl add_node m ks in
  hash m' = hash m /\ replicas m' = replicas m /\
  keys m' = keys m ++ (vnodes (hash m) (replicas m) ks).*1 /\
  hashMap m' = foldl put (hashMap m) (vnodes (hash m) (replicas m) ks).
Proof.
  induction ks as [|key ks IH]; intros m; cbn zeta.
  - simpl. by rewrite app_nil_r.
  - cbn [foldl]. destruct (IH (add_node m key)) as (Hh & Hr & Hk & Hm).
    destruct (add_replicas_spec key (seqZ 0 (replicas m)) m) as (Hh1 & Hr1 & Hk1 & Hm1).
    cbn zeta in *. fold (add_node m key) in Hh1, Hr1, Hk1, Hm1.
    rewrite Hh, Hr, Hk, Hm, Hh1, Hr1, Hk1, Hm1.
    unfold vnodes. rewrite bind_cons, fmap_app, foldl_app, <- app_assoc.
    rewrite <- list_fmap_compose. done.
Qed.

Lemma Add_spec ks m :
  hash (Add ks m) = hash m /\ replicas (Add ks m) = replicas m /\
  keys (Add ks m) = sort.Ints (keys m ++ (vnodes (hash m) (replicas m) ks).*1) /\
  hashMap (Add ks m) = foldl put (hashMap m) (vnodes (hash m) (replicas m) ks).
Proof.
  destruct (add_nodes_spec ks m) as (Hh & Hr & Hk & Hm). cbn zeta in *.
  unfold Add. simpl. by rewrite Hh, Hr, Hk, Hm.
Qed.

Lemma Adds_snoc calls ks m : Adds (calls ++ [ks]) m = Add ks (Adds calls m).
Proof. unfold Adds. by rewrite foldl_snoc. Qed.

(** A ring built from [New] is determined by the list of all node ids it
    was given: sorted hashes, and the map written in creation order. *)
Lemma Adds_spec r fn calls :
  let m0 := New r fn in
  let m := Adds calls m0 in
  hash m = hash m0 /\ replicas m = r /\
  keys m = sort.Ints (vnodes (hash m0) r (concat calls)).*1 /\
  hashMap m = foldl put ∅ (vnodes (hash m0) r (concat calls)).
Proof.
  cbn zeta. induction calls as [|ks calls IH] using rev_ind.
  - simpl. done.
  - destruct IH as (Hh & Hr & Hk & Hm). rewrite Adds_snoc.
    destruct (Add_spec ks (Adds calls (New r fn))) as (Hh1 & Hr1 & Hk1 & Hm1).
    rewrite Hh1, Hr1, Hk1, Hm1, Hh, Hr, Hk, Hm.
    rewrite concat_app, vnodes_app, fmap_app, foldl_app. simpl.
    rewrite app_nil_r, Ints_idem_app. done.
Qed.

(** ** The map after a run of writes *)

Lemma foldl_put_Some l : forall mp h n,
  foldl put mp l !! h = Some n -> (h, n) ∈ l \/ mp !! h = Some n.
Proof.
  induction l as [|[h' n'] l IH]; intros mp h n Hl; [by right|].
  cbn [foldl] in Hl. apply IH in Hl as [Hl | Hl]; [left; by right|].
  unfold put in Hl. simpl in Hl. apply lookup_insert_Some in Hl as [[-> ->] | [_ Hl]].
  - left. by left.
  - by right.
Qed.

Lemma foldl_put_written l : forall mp h,
  h ∈ l.*1 -> exists n, foldl put mp l !! h = Some n /\ (h, n) ∈ l.
Proof.
  induction l as [|[h' n'] l IH]; intros mp h Hh; [by apply elem_of_nil in Hh|].
  cbn [foldl]. destruct (decide (h ∈ l.*1)) as [Hin | Hnin].
  - destruct (IH (put mp (h', n')) h Hin) as (n & Hl & Hn).
    exists n. split; [done | by right].
  - rewrite fmap_cons in Hh. apply elem_of_cons in Hh as [-> | Hh]; [|done].
    exists n'. split; [|by left]. simpl.
    destruct (foldl put (put mp (h', n')) l !! h') as [n|] eqn:Hl.
    + apply foldl_put_Some in Hl as [Hl | Hl].
      * exfalso. apply Hnin. by apply (list_elem_of_fmap_2 fst) in Hl.
      * unfold put in Hl. simpl in Hl. by rewrite lookup_insert_eq in Hl.
    + exfalso. clear IH Hnin. revert Hl.
      assert (is_Some (put mp (h', n') !! h')) as Hs
        by (unfold put; simpl; rewrite lookup_insert_eq; eauto).
      revert Hs. generalize (put mp (h', n')) as mp'.
      induction l as [|p l IHl]; intros mp' [x Hx] Hl; [simpl in Hl; congruence|].
      cbn [foldl] in Hl. apply (IHl (put mp' p)); [|done].
      unfold put. rewrite lookup_insert. case_decide; eauto.
Qed.

(** When equal hashes carry equal node ids, the order of the writes does
    not matter. *)
Lemma foldl_put_perm l1 l2 :
  l1 ≡ₚ l2 ->
  (forall p q, p ∈ l1 -> q ∈ l1 -> p.1 = q.1 -> p.2 = q.2) ->
  foldl put ∅ l1 = foldl put ∅ l2.
Proof.
  intros Hp Hfun.
  assert (forall l l', l ≡ₚ l' ->
            (forall p q, p ∈ l -> q ∈ l -> p.1 = q.1 -> p.2 = q.2) ->
            forall h n, foldl put ∅ l !! h = Some n -> foldl put ∅ l' !! h = Some n)
    as Hone.
  { intros l l' Hll Hf h n Hl.
    apply foldl_put_Some in Hl as [Hl | Hl]; [|by rewrite lookup_empty in Hl].
    destruct (foldl_put_written l' ∅ h) as (n' & Hl' & Hn').
    { rewrite <- Hll. by apply (list_elem_of_fmap_2 fst) in Hl. }
    rewrite Hl'. f_equal. rewrite <- Hll in Hn'.
    by apply (Hf (h, n') (h, n)). }
  apply map_eq. intros h.
  destruct (foldl put ∅ l1 !! h) as [n|] eqn:H1.
  - symmetry. by apply (Hone l1 l2).
  - destruct (foldl put ∅ l2 !! h) as [n|] eqn:H2; [|done].
    apply (Hone l2 l1) in H2; [congruence | done |].
    intros p q. rewrite <- !Hp. apply Hfun.
Qed.

(** ** [Get] *)

Lemma Get_empty m key : keys m = [] -> Get m key = "".
Proof. intros Hk. unfold Get. by rewrite Hk. Qed.

(** On sorted hashes, [Get] reads the map at the first hash that is at
    least the hash of the key, or at the first hash of all. *)
Lemma Get_sorted m key :
  Sorted Z.le (keys m) -> keys m <> [] ->
  exists x,
    x ∈ keys m /\ Get m key = default "" (hashMap m !! x) /\
    ((hash_int m key <= x /\
      forall y, y ∈ keys m -> hash_int m key <= y -> x <= y) \/
     ((forall y, y ∈ keys m -> y < hash_int m key) /\
      keys m !! 0%nat = Some x /\ forall y, y ∈ keys m -> x <= y)).
Proof.
  intros Hs Hne. unfold Get.
  destruct (decide (length (keys m) = 0%nat)) as [Hz | Hnz];
    [by apply nil_length_inv in Hz|].
  set (h := hash_int m key). set (n := length (keys m)) in *.
  set (f := fun i : nat => bool_decide (h <= nth i (keys m) 0)).
  destruct (Search_spec n f) as (Hle & Hlo & Hhi).
  { intros a b Hab Ha. unfold f in *.
    apply bool_decide_eq_true in Ha. apply bool_decide_eq_true.
    pose proof (sorted_nth (keys m) a b Hs Hab). lia. }
  set (idx := sort.Search n f) in *.
  assert (forall y, y ∈ keys m -> exists b, (b < n)%nat /\ nth b (keys m) 0 = y)
    as Hnth.
  { intros y Hy. apply list_elem_of_In in Hy. by apply In_nth. }
  assert (forall b, (b < n)%nat -> nth b (keys m) 0 ∈ keys m) as Hin.
  { intros b Hb. apply list_elem_of_In. by apply nth_In. }
  destruct (decide (idx < n)%nat) as [Hlt | Hge].
  - rewrite Nat.mod_small by done.
    exists (nth idx (keys m) 0). split_and!; [by apply Hin | done |].
    left. split.
    + specialize (Hhi idx ltac:(lia)). unfold f in Hhi.
      by apply bool_decide_eq_true in Hhi.
    + intros y Hy Hhy. destruct (Hnth y Hy) as (b & Hb & <-).
      destruct (decide (b < idx)%nat) as [Hbi | Hbi].
      * specialize (Hlo b Hbi). unfold f in Hlo.
        apply bool_decide_eq_false in Hlo. lia.
      * apply sorted_nth; [done | lia].
  - assert (idx = n) as -> by lia. rewrite Nat.Div0.mod_same.
    exists (nth 0 (keys m) 0). split_and!; [apply Hin; lia | done |].
    right. split_and!.
    + intros y Hy. destruct (Hnth y Hy) as (b & Hb & <-).
      specialize (Hlo b Hb). unfold f in Hlo.
      apply bool_decide_eq_false in Hlo. lia.
    + destruct (keys m); [done | reflexivity].
    + intros y Hy. destruct (Hnth y Hy) as (b & Hb & <-).
      apply sorted_nth; [done | lia].
Qed.

(** ** The properties of the specification *)

(** C4 (ring lookup). [Get] on a ring without virtual nodes returns [""].
    On a ring built by [New] and [Add] calls that has virtual nodes, it
    returns the node id stored under the smallest virtual-node hash that
    is [>= hash(key)], and under the first (smallest) hash of the ring
    when every hash is below [hash(key)]; that node id is one that was
    added. With [replicas = 3] and the decimal hash, [Add("6","4","2")]
    gives the hashes 2,4,6,12,14,16,22,24,26 and
    [Get("2")="2"], [Get("11")="2"], [Get("23")="4"], [Get("27")="2"];
    after [Add("8")], [Get("27")="8"]. *)
Theorem C4_ring_get :
  (forall m key, keys m = [] -> Get m key = "") /\
  (forall r fn calls key,
      let m := Adds calls (New r fn) in
      keys m <> [] ->
      exists x node,
        x ∈ keys m /\ hashMap m !! x = Some node /\ node ∈ concat calls /\
        Get m key = node /\
        ((hash_int m key <= x /\
          forall y, y ∈ keys m -> hash_int m key <= y -> x <= y) \/
         ((forall y, y ∈ keys m -> y < hash_int m key) /\
          keys m !! 0%nat = Some x /\ forall y, y ∈ keys m -> x <= y))) /\
  (let ring := Add ["6"; "4"; "2"] (New 3 (Some decimal_hash)) in
   keys ring = [2; 4; 6; 12; 14; 16; 22; 24; 26] /\
   Get ring "2" = "2" /\ Get ring "11" = "2" /\ Get ring "23" = "4" /\
   Get ring "27" = "2" /\ Get (Add ["8"] ring) "27" = "8").
Proof.
  split_and!; [apply Get_empty | | by vm_compute].
  intros r fn calls key m Hne.
  destruct (Adds_spec r fn calls) as (Hh & Hr & Hk & Hm). cbn zeta in *.
  fold m in Hh, Hr, Hk, Hm.
  assert (Sorted Z.le (keys m)) as Hs by (rewrite Hk; apply Ints_sorted).
  destruct (Get_sorted m key Hs Hne) as (x & Hx & Hget & Hmin).
  assert (x ∈ (vnodes (hash (New r fn)) r (concat calls)).*1) as Hx'.
  { rewrite Hk in Hx. by rewrite Ints_perm in Hx. }
  destruct (foldl_put_written _ ∅ x Hx') as (node & Hl & Hn).
  rewrite <- Hm in Hl. exists x, node.
  split_and!; [done | done | | | done].
  - by apply vnodes_node in Hn.
  - by rewrite Hget, Hl.
Qed.

Lemma C4_ring_get_witness :
  exists x node,
    x ∈ keys (Adds [["6"; "4"; "2"]; ["8"]] (New 3 (Some decimal_hash))) /\
    hashMap (Adds [["6"; "4"; "2"]; ["8"]] (New 3 (Some decimal_hash))) !! x
      = Some node /\
    node ∈ concat [["6"; "4"; "2"]; ["8"]] /\
    Get (Adds [["6"; "4"; "2"]; ["8"]] (New 3 (Some decimal_hash))) "27" = node.
Proof.
  destruct (proj1 (proj2 C4_ring_get) 3 (Some decimal_hash)
              [["6"; "4"; "2"]; ["8"]] "27") as (x & node & H1 & H2 & H3 & H4 & _).
  - by vm_compute.
  - exists x, node. by split_and!.
Defined.

(** C7 as stated fails: with one replica and the decimal hash of the
    test, the node ids ["1"] and ["01"] share the virtual-node hash 1, and
    the node that answers depends on which of them was added last. *)
Lemma C7_counterexample :
  Get (Add ["1"; "01"] (New 1 (Some decimal_hash))) "1" = "01" /\
  Get (Add ["01"; "1"] (New 1 (Some decimal_hash))) "1" = "1" /\
  Get (Adds [["1"]; ["01"]] (New 1 (Some decimal_hash))) "1" = "01" /\
  Get (Adds [["01"]; ["1"]] (New 1 (Some decimal_hash))) "1" = "1" /\
  ["1"; "01"] ≡ₚ ["01"; "1"].
Proof. split_and!; [by vm_compute.. | apply Permutation_swap]. Qed.

(** C7 (order-insensitive placement), amended. For every replicas value,
    hash function and key: two series of [Add] calls on a new ring that
    add the same node ids in any order and any grouping build the same
    ring and answer [Get(key)] alike, provided no virtual-node hash is
    shared by two different node ids. (On a shared hash the map keeps the
    node id written last.) *)
Theorem C7_order_insensitive :
  forall r fn (calls1 calls2 : list (list string)),
    concat calls1 ≡ₚ concat calls2 ->
    collision_free (hash (New r fn)) r (concat calls1) ->
    keys (Adds calls1 (New r fn)) = keys (Adds calls2 (New r fn)) /\
    hashMap (Adds calls1 (New r fn)) = hashMap (Adds calls2 (New r fn)) /\
    forall key, Get (Adds calls1 (New r fn)) key = Get (Adds calls2 (New r fn)) key.
Proof.
  intros r fn calls1 calls2 Hp Hcf.
  destruct (Adds_spec r fn calls1) as (Hh1 & Hr1 & Hk1 & Hm1).
  destruct (Adds_spec r fn calls2) as (Hh2 & Hr2 & Hk2 & Hm2).
  cbn zeta in *.
  pose proof (vnodes_perm (hash (New r fn)) r _ _ Hp) as Hv.
  assert (keys (Adds calls1 (New r fn)) = keys (Adds calls2 (New r fn))) as Hk.
  { rewrite Hk1, Hk2. apply Ints_unique. by rewrite Hv. }
  assert (hashMap (Adds calls1 (New r fn)) = hashMap (Adds calls2 (New r fn))) as Hm.
  { rewrite Hm1, Hm2. by apply foldl_put_perm. }
  split_and!; [done | done |].
  intros key. unfold Get, hash_int. by rewrite Hk, Hm, Hh1, Hh2.
Qed.

Lemma C7_order_insensitive_witness :
  keys (Adds [["6"; "4"]; ["2"]] (New 3 (Some decimal_hash))) =
    keys (Adds [["2"; "6"; "4"]] (New 3 (Some decimal_hash))) /\
  hashMap (Adds [["6"; "4"]; ["2"]] (New 3 (Some decimal_hash))) =
    hashMap (Adds [["2"; "6"; "4"]] (New 3 (Some decimal_hash))) /\
  Get (Adds [["6"; "4"]; ["2"]] (New 3 (Some decimal_hash))) "27" =
    Get (Adds [["2"; "6"; "4"]] (New 3 (Some decimal_hash))) "27".
Proof.
  destruct (C7_order_insensitive 3 (Some decimal_hash) [["6"; "4"]; ["2"]]
              [["2"; "6"; "4"]]) as (Hk & Hm & Hg); [| | by split_and!].
  - simpl. apply Permutation_sym, (Permutation_cons_append ["6"; "4"] "2").
  - intros p q Hp Hq. vm_compute in Hp, Hq.
    repeat (apply elem_of_cons in Hp as [-> | Hp]);
      [.. | by apply elem_of_nil in Hp];
      repeat (apply elem_of_cons in Hq as [-> | Hq]);
      try (by apply elem_of_nil in Hq); by vm_compute.
Defined.

End ring_theory.

(* ===================================================================== *)
(** * geecache: the load pipeline, one call at a time                    *)
(* ===================================================================== *)

Section group_theory.
Import geecache.
Context {W : Type}.

Implicit Types (g : @Group W) (w : W) (key : string).

(** The engine inside the shell, if created, keeps the invariants of
    the engine and has the capacity of the shell as its limit. *)
Definition shell_inv (c : cache) : Prop :=
  match lru_ c with
  | None => True
  | Some l => Inv l /\ lru.maxBytes l = cacheBytes c
  end.

Lemma ByteView_Len_nonneg (v : ByteView) : 0 <= lru.Len v.
Proof. apply len_nonneg. Qed.

Lemma Add_keeps k (v : ByteView) (l l' : @lru.Cache ByteView unit) u u' :
  Inv l -> lru.Add k v l u = Some (l', u') ->
  Inv l' /\ lru.maxBytes l' = lru.maxBytes l.
Proof.
  intros HI Hadd. unfold lru.Add in Hadd.
  pose (P := fun x : @lru.Cache ByteView unit =>
    Inv x /\ lru.maxBytes x = lru.maxBytes l).
  destruct (evict_loop_inv P) with (n := S (length (lru.ll (lru.Add_insert k v l))))
    (c := lru.Add_insert k v l) (w := u) (c' := l') (w' := u') as [HP _];
    [ | | done | done].
  - intros x wx [HIx Hmx] _. split; [by apply Inv_RemoveOldest|].
    by rewrite RemoveOldest_maxBytes.
  - split; [by apply Inv_Add_insert | apply Add_insert_fields].
Qed.

Lemma shell_engine_inv (c : cache) :
  shell_inv c ->
  let l := match lru_ c with
           | None => lru.New (cacheBytes c) None
           | Some l => l
           end in
  Inv l /\ lru.maxBytes l = cacheBytes c.
Proof.
  unfold shell_inv. destruct (lru_ c) as [l|]; cbn zeta; [done|].
  intros _. split; [apply Inv_New | done].
Qed.

Lemma cache_get_inv key (c : cache) :
  shell_inv c ->
  shell_inv (cache_get key c).2 /\ cacheBytes (cache_get key c).2 = cacheBytes c.
Proof.
  unfold shell_inv, cache_get. destruct (lru_ c) as [l|] eqn:Hl.
  - intros [HI Hm]. destruct (Get_fields key l) as (Hgm & _).
    pose proof (Inv_Get key l HI) as HIg.
    destruct (lru.Get key l) as [v l']. simpl in *. split; [split|]; congruence.
  - simpl. by rewrite Hl.
Qed.

(** [add] on a shell with a capacity that is not negative returns. *)
Lemma cache_add_returns key (v : ByteView) (c : cache) :
  shell_inv c -> 0 <= cacheBytes c -> is_Some (cache_add key v c).
Proof.
  intros Hok Hcb. destruct (shell_engine_inv c Hok) as [HI Hm]. cbn zeta in *.
  unfold cache_add.
  set (l := match lru_ c with
            | None => lru.New (cacheBytes c) None
            | Some l => l
            end) in *.
  destruct (evict_loop_terminates (S (length (lru.ll (lru.Add_insert key v l))))
              (lru.Add_insert key v l) tt) as [[l' u] Hl].
  - by apply Inv_Add_insert.
  - rewrite (proj1 (Add_insert_fields key v l)). lia.
  - lia.
  - unfold lru.Add. rewrite Hl. by eexists.
Qed.

(** What [add] leaves: a shell in order with the same capacity, in which
    an entry that fits is found by [get]. *)
Lemma cache_add_inv key (v : ByteView) (c c' : cache) :
  shell_inv c -> cache_add key v c = Some c' ->
  shell_inv c' /\ cacheBytes c' = cacheBytes c /\
  (cacheBytes c = 0 \/ len key + lru.Len v <= cacheBytes c ->
   (cache_get key c').1 = Some v).
Proof.
  intros Hok Hadd. unfold cache_add in Hadd.
  destruct (shell_engine_inv c Hok) as [HI Hm]. cbn zeta in *.
  set (l := match lru_ c with
            | None => lru.New (cacheBytes c) None
            | Some l => l
            end) in *.
  destruct (lru.Add key v l tt) as [[l' u]|] eqn:Hl; [|done]. simplify_eq.
  destruct (Add_keeps key v l l' tt u HI Hl) as [HI' Hm'].
  split_and!; [unfold shell_inv; simpl; split; congruence | done |].
  intros Hfit.
  assert (head (lru.ll l') = Some (lru.mkEntry key v)) as Hh.
  { apply (Add_fits key v l tt l' u); [done | | done].
    pose proof (len_nonneg key). pose proof (ByteView_Len_nonneg v).
    rewrite Hm. destruct Hfit; [by left | right; lia]. }
  unfold cache_get. simpl. unfold lru.Get.
  assert (lru.cache l' !! key = Some (lru.mkEntry key v)) as ->.
  { apply (inv_index _ HI'). split; [|done].
    destruct (lru.ll l') as [|e0 l0]; simpl in Hh; simplify_eq. by left. }
  done.
Qed.

(** The peer hop gave a value: a picker is registered, it selected a
    peer, and the peer answered [bs] without error, leaving world [w2]. *)
Definition peer_hit g key w (bs : bytes) (w2 : W) : Prop :=
  exists pick peer w1,
    peers g = Some pick /\ pick key w = (Some peer, w1) /\
    peer (name g) key w1 = ((bs, None), w2).

(** The peer hop gave no value and left world [w1]: no picker is
    registered, or it selected no peer, or the selected peer failed. *)
Definition falls_back g key w (w1 : W) : Prop :=
  (peers g = None /\ w1 = w) \/
  (exists pick, peers g = Some pick /\ pick key w = (None, w1)) \/
  (exists pick peer w0 bs e,
     peers g = Some pick /\ pick key w = (Some peer, w0) /\
     peer (name g) key w0 = ((bs, Some e), w1)).

Lemma load_cases g key w :
  (exists bs w2, peer_hit g key w bs w2) \/ (exists w1, falls_back g key w w1).
Proof.
  unfold peer_hit, falls_back.
  destruct (peers g) as [pick|] eqn:Hp; [|right; exists w; by left].
  destruct (pick key w) as [[peer|] w1] eqn:Hpick.
  - destruct (peer (name g) key w1) as [[bs [e|]] w2] eqn:Hpeer.
    + right. exists w2. right. right. by exists pick, peer, w1, bs, e.
    + left. by exists bs, w2, pick, peer, w1.
  - right. exists w1. right. left. by exists pick.
Qed.

Lemma load_peer_hit g key w bs w2 :
  peer_hit g key w bs w2 -> load g key w = Some ((mkByteView bs, None), g, w2).
Proof.
  intros (pick & peer & w1 & Hp & Hpick & Hpeer).
  unfold load, getFromPeer. by rewrite Hp, Hpick, Hpeer.
Qed.

Lemma load_falls_back g key w w1 :
  falls_back g key w w1 -> load g key w = getLocally g key w1.
Proof.
  unfold load, getFromPeer.
  intros [[Hp ->] | [(pick & Hp & Hpick) | (pick & peer & w0 & bs & e & Hp & Hpick & Hpeer)]].
  - by rewrite Hp.
  - by rewrite Hp, Hpick.
  - by rewrite Hp, Hpick, Hpeer.
Qed.

Lemma getLocally_error g key w bs e w' :
  getter g key w = ((bs, Some e), w') ->
  getLocally g key w = Some ((ByteView_zero, Some e), g, w').
Proof. intros Hg. unfold getLocally. by rewrite Hg. Qed.

Lemma getLocally_value g key w bs w' :
  getter g key w = ((bs, None), w') ->
  getLocally g key w =
    match cache_add key (mkByteView bs) (mainCache g) with
    | Some c => Some ((mkByteView bs, None), set_mainCache g c, w')
    | None => None
    end.
Proof.
  intros Hg. unfold getLocally, populateCache, cloneBytes. rewrite Hg.
  by destruct (cache_add key (mkByteView bs) (mainCache g)).
Qed.

(** The groups a program can hold (the fields are not exported): the
    ones [NewGroup] returns, and what [RegisterPeers] and [Get] make of
    them. *)
Inductive reachable : @Group W -> Prop :=
  | reach_NewGroup nm cb gt groups g groups' :
      NewGroup nm cb (Some gt) groups = (Return g, groups') -> reachable g
  | reach_RegisterPeers ps g g' :
      reachable g -> RegisterPeers ps g = (Return tt, g') -> reachable g'
  | reach_Get key g w r g' w' :
      reachable g -> Get g key w = Some (r, g', w') -> reachable g'.

Lemma load_shell_inv g key w r g' w' :
  shell_inv (mainCache g) -> load g key w = Some (r, g', w') ->
  shell_inv (mainCache g').
Proof.
  intros Hok Hload.
  destruct (load_cases g key w) as [(bs & w2 & Hhit) | (w1 & Hfb)].
  - rewrite (load_peer_hit _ _ _ _ _ Hhit) in Hload. by simplify_eq.
  - rewrite (load_falls_back _ _ _ _ Hfb) in Hload.
    destruct (getter g key w1) as [[bs [e|]] w2] eqn:Hg.
    + rewrite (getLocally_error _ _ _ _ _ _ Hg) in Hload. by simplify_eq.
    + rewrite (getLocally_value _ _ _ _ _ Hg) in Hload.
      destruct (cache_add key (mkByteView bs) (mainCache g)) as [c|] eqn:Hadd;
        [|done].
      simplify_eq. by apply (cache_add_inv key (mkByteView bs) (mainCache g)).
Qed.

(** The shell of every such group is in order. *)
Lemma reachable_shell_inv g : reachable g -> shell_inv (mainCache g).
Proof.
  induction 1 as [nm cb gt groups g groups' Hnew
                 | ps g g' _ IH Hreg | key g w r g' w' _ IH Hget].
  - unfold NewGroup in Hnew. by simplify_eq.
  - unfold RegisterPeers in Hreg. destruct (peers g); by simplify_eq.
  - unfold Get in Hget. case_decide; [by simplify_eq|].
    destruct (cache_get_inv key _ IH) as [Hin _].
    destruct (cache_get key (mainCache g)) as [[v|] c]; cbn [snd] in Hin.
    + by simplify_eq.
    + by apply load_shell_inv in Hget.
Qed.

(** C5 (only local loads are cached). On every group a program can hold:
    - when [load(key)] gets the value from a remote peer it returns the
      peer's bytes as a byte view together with the very group it was
      called on: the cache shell is as it was and the loader is not
      called;
    - when the value comes from the local loader, the group that [load]
      returns has as its shell the result of [mainCache.add(key, value)]
      on the shell before (name, loader and picker unchanged); a [get(key)]
      on that shell finds the value whenever the entry fits the capacity;
      and with a capacity that is not negative [load] does return;
    - a [load] that returns a group other than the one it was called on
      is a local loader success. *)
Theorem C5_only_local_loads_cached :
  forall (g : @Group W) key w,
    reachable g ->
    (forall bs w2, peer_hit g key w bs w2 ->
        load g key w = Some ((mkByteView bs, None), g, w2)) /\
    (forall w1 bs w2,
        falls_back g key w w1 -> getter g key w1 = ((bs, None), w2) ->
        (forall r g' w',
            load g key w = Some (r, g', w') ->
            r = (mkByteView bs, None) /\ w' = w2 /\
            cache_add key (mkByteView bs) (mainCache g) = Some (mainCache g') /\
            name g' = name g /\ getter g' = getter g /\ peers g' = peers g /\
            (cacheBytes (mainCache g) = 0 \/
               len key + len bs <= cacheBytes (mainCache g) ->
             (cache_get key (mainCache g')).1 = Some (mkByteView bs))) /\
        (0 <= cacheBytes (mainCache g) ->
         exists g', load g key w = Some ((mkByteView bs, None), g', w2))) /\
    (forall r g' w',
        load g key w = Some (r, g', w') ->
        g' = g \/
        exists w1 bs,
          falls_back g key w w1 /\ getter g key w1 = ((bs, None), w') /\
          r = (mkByteView bs, None) /\
          cache_add key (mkByteView bs) (mainCache g) = Some (mainCache g')).
Proof.
  intros g key w Hreach. pose proof (reachable_shell_inv g Hreach) as Hok.
  split_and!.
  - intros bs w2. apply load_peer_hit.
  - intros w1 bs w2 Hfb Hg.
    rewrite (load_falls_back _ _ _ _ Hfb), (getLocally_value _ _ _ _ _ Hg).
    split.
    + intros r g' w' Hload.
      destruct (cache_add key (mkByteView bs) (mainCache g)) as [c|] eqn:Hadd;
        [|done].
      simplify_eq. split_and!; try done.
      intros Hfit.
      by apply (cache_add_inv key (mkByteView bs) (mainCache g) c Hok Hadd).
    + intros Hcb.
      destruct (cache_add_returns key (mkByteView bs) (mainCache g) Hok Hcb)
        as [c ->].
      by eexists.
  - intros r g' w' Hload.
    destruct (load_cases g key w) as [(bs & w2 & Hhit) | (w1 & Hfb)].
    + rewrite (load_peer_hit _ _ _ _ _ Hhit) in Hload. left. by simplify_eq.
    + rewrite (load_falls_back _ _ _ _ Hfb) in Hload.
      destruct (getter g key w1) as [[bs [e|]] w2] eqn:Hg.
      * rewrite (getLocally_error _ _ _ _ _ _ Hg) in Hload. left. by simplify_eq.
      * rewrite (getLocally_value _ _ _ _ _ Hg) in Hload.
        destruct (cache_add key (mkByteView bs) (mainCache g)) as [c|] eqn:Hadd;
          [|done].
        right. simplify_eq. by exists w1, bs.
Qed.

(** C6 (fallback and loader errors). When the peer hop gives no value --
    no picker, no peer selected, or the peer failed -- [load(key)] is
    [getLocally(key)]: the loader is called. An error of the loader is
    returned as it is, with the zero byte view, and the group (its cache)
    is unchanged. An error that [load] returns is always the loader's: the
    peer's error is dropped once the fallback runs, and when the fallback
    succeeds [load] succeeds. *)
Theorem C6_fallback_and_errors :
  forall (g : @Group W) key w,
    (forall w1, falls_back g key w w1 -> load g key w = getLocally g key w1) /\
    (forall w1 bs e w2,
        falls_back g key w w1 -> getter g key w1 = ((bs, Some e), w2) ->
        load g key w = Some ((ByteView_zero, Some e), g, w2)) /\
    (forall w1 bs w2,
        falls_back g key w w1 -> getter g key w1 = ((bs, None), w2) ->
        load g key w =
          match cache_add key (mkByteView bs) (mainCache g) with
          | Some c => Some ((mkByteView bs, None), set_mainCache g c, w2)
          | None => None
          end) /\
    (forall v e g' w',
        load g key w = Some ((v, Some e), g', w') ->
        exists w1 bs,
          falls_back g key w w1 /\ getter g key w1 = ((bs, Some e), w') /\
          g' = g /\ v = ByteView_zero).
Proof.
  intros g key w. split_and!.
  - intros w1. apply load_falls_back.
  - intros w1 bs e w2 Hfb Hg.
    by rewrite (load_falls_back _ _ _ _ Hfb), (getLocally_error _ _ _ _ _ _ Hg).
  - intros w1 bs w2 Hfb Hg.
    by rewrite (load_falls_back _ _ _ _ Hfb), (getLocally_value _ _ _ _ _ Hg).
  - intros v e g' w' Hload.
    destruct (load_cases g key w) as [(bs & w2 & Hhit) | (w1 & Hfb)].
    + rewrite (load_peer_hit _ _ _ _ _ Hhit) in Hload. by simplify_eq.
    + rewrite (load_falls_back _ _ _ _ Hfb) in Hload.
      destruct (getter g key w1) as [[bs [e'|]] w2] eqn:Hg.
      * rewrite (getLocally_error _ _ _ _ _ _ Hg) in Hload. simplify_eq.
        by exists w1, bs.
      * rewrite (getLocally_value _ _ _ _ _ Hg) in Hload.
        destruct (cache_add key (mkByteView bs) (mainCache g)); by simplify_eq.
Qed.

(** C8 (input errors), amended. [Get("")] returns the zero byte view and
    the error "key is required" and leaves the group and the world as
    they were: neither the cache nor the loader is consulted. [NewGroup]
    with a nil getter does not hand a rejection back to its caller: it
    panics with "nil Getter" before it locks or touches the registry, so
    no group is built or registered, and the signal is of the same kind
    as the panic of a second [RegisterPeers], which changes nothing
    either. A [NewGroup] with a getter on the registry left behind
    returns the group and registers it. *)
Theorem C8_input_errors :
  (forall (g : @Group W) w,
      Get g "" w = Some ((ByteView_zero, Some "key is required"), g, w)) /\
  (forall nm cb (groups : gmap string (@Group W)),
      NewGroup nm cb None groups = (Panic "nil Getter", groups) /\
      (forall g, (NewGroup nm cb None groups).1 <> Return g) /\
      GetGroup nm (NewGroup nm cb None groups).2 = GetGroup nm groups) /\
  (forall (g : @Group W) ps ps',
      peers g = Some ps ->
      RegisterPeers ps' g =
        (Panic "RegisterPeerPicker called more than once", g)) /\
  (forall nm cb gt (groups : gmap string (@Group W)),
      exists g,
        NewGroup nm cb (Some gt) (NewGroup nm cb None groups).2
          = (Return g, <[nm := g]> groups) /\
        GetGroup nm (<[nm := g]> groups) = Some g /\
        name g = nm /\ getter g = gt /\ peers g = None /\
        mainCache g = {| lru_ := None; cacheBytes := cb |}).
Proof.
  split_and!.
  - intros g w. unfold Get. by rewrite decide_True.
  - done.
  - intros g ps ps' Hp. unfold RegisterPeers. by rewrite Hp.
  - intros nm cb gt groups. eexists. split; [reflexivity|].
    unfold GetGroup. by rewrite lookup_insert_eq.
Qed.

End group_theory.

Section group_witnesses.
Import geecache.

(** C8 as stated fails: [NewGroup] with a nil getter does not come back
    to its caller with a rejection. The call panics, and no group and no
    error value is returned; a second [RegisterPeers] ends the same way. *)
Lemma C8_counterexample :
  let groups : gmap string (@Group (gmap string nat)) := {[ "scores" := gee ]} in
  let pool := {| name := "scores"; getter := counting_getter;
                 mainCache := {| lru_ := None; cacheBytes := 2048 |};
                 peers := Some (always_pick failing_peer) |} in
  (~ exists g, (NewGroup "scores" 2048 None groups).1 = Return g) /\
  NewGroup "scores" 2048 None groups = (Panic "nil Getter", groups) /\
  RegisterPeers (always_pick failing_peer) pool =
    (Panic "RegisterPeerPicker called more than once", pool).
Proof.
  cbv zeta. split_and!; [|reflexivity|reflexivity].
  intros [g Hg]. discriminate Hg.
Qed.

Lemma C5_only_local_loads_cached_witness :
  exists g',
    load gee "Tom" ∅ =
      Some ((mkByteView "630", None), g', {[ "Tom" := 1%nat ]}) /\
    cache_add "Tom" (mkByteView "630") (mainCache gee) = Some (mainCache g') /\
    (cache_get "Tom" (mainCache g')).1 = Some (mkByteView "630").
Proof.
  assert (reachable gee) as Hreach
    by (by apply (reach_NewGroup "scores" 2048 counting_getter ∅ gee
                    (<["scores" := gee]> ∅))).
  destruct (proj1 (proj2 (C5_only_local_loads_cached gee "Tom" ∅ Hreach))
              ∅ "630" {[ "Tom" := 1%nat ]}) as [Hret Hex].
  - by left.
  - by vm_compute.
  - destruct Hex as [g' Hload]; [by vm_compute|].
    destruct (Hret _ _ _ Hload) as (_ & _ & Hadd & _ & _ & _ & Hget).
    exists g'. split_and!; [done | done |]. apply Hget. right. by vm_compute.
Defined.

Lemma C6_fallback_and_errors_witness :
  let g := {| name := "scores"; getter := counting_getter;
              mainCache := {| lru_ := None; cacheBytes := 2048 |};
              peers := Some (always_pick failing_peer) |} in
  load g "unknown" ∅ = Some ((ByteView_zero, Some "unknown not exist"), g, ∅).
Proof.
  intros g.
  apply (proj1 (proj2 (C6_fallback_and_errors g "unknown" ∅)) ∅ "").
  - right. right.
    by exists (always_pick failing_peer), failing_peer, ∅, "",
              "server returned: 500 Internal Server Error".
  - by vm_compute.
Defined.

End group_witnesses.

(* ===================================================================== *)
(** * singleflight: every interleaving of callers on one key             *)
(* ===================================================================== *)

Ltac sf_fields :=
  cbn [singleflight.mu singleflight.m singleflight.heap singleflight.world
       singleflight.callers singleflight.runs singleflight.deleted].

Section singleflight_theory.
Import singleflight.
Context {R W : Type} (zero : R) (k : string).

Implicit Types (st : @state R W) (th : @caller R W) (p : @pc R)
  (l : list (@caller R W)) (t c : nat).

(** ** Counting goroutines by where they are *)

(** Holding [g.mu]. *)
Definition holds p : bool :=
  match p with
  | Locked | Hit _ | Miss | Inserted _ | Deleting _ | Deleted _ => true
  | _ => false
  end.

(** Between [g.m[key] = c] and [delete(g.m, key)]: the call is in the map. *)
Definition leading p : bool :=
  match p with
  | Inserted _ | Calling _ | Finishing _ | Relock _ | Deleting _ => true
  | _ => false
  end.

(** The call is allocated and its [fn] has not run yet. *)
Definition pending p : bool :=
  match p with
  | Inserted _ | Calling _ => true
  | _ => false
  end.

Definition b2n (b : bool) : nat := if b then 1%nat else 0%nat.

Fixpoint count (f : @pc R -> bool) l : nat :=
  match l with
  | [] => 0%nat
  | th :: l' => (b2n (f (c_pc th)) + count f l')%nat
  end.

Lemma count_insert f l t th th' :
  l !! t = Some th ->
  (count f (<[t := th']> l) + b2n (f (c_pc th)) =
   count f l + b2n (f (c_pc th')))%nat.
Proof.
  revert t. induction l as [|x l IH]; intros [|t] Hl; simplify_eq/=; [lia|].
  specialize (IH t Hl). lia.
Qed.

Lemma count_lookup f l t th :
  l !! t = Some th -> f (c_pc th) = true -> (1 <= count f l)%nat.
Proof.
  revert t. induction l as [|x l IH]; intros [|t] Hl Hf; simplify_eq/=.
  - rewrite Hf. simpl. lia.
  - specialize (IH t Hl Hf). lia.
Qed.

Lemma count_lookup2 f l t1 t2 th1 th2 :
  t1 <> t2 -> l !! t1 = Some th1 -> l !! t2 = Some th2 ->
  f (c_pc th1) = true -> f (c_pc th2) = true -> (2 <= count f l)%nat.
Proof.
  revert t1 t2. induction l as [|x l IH]; intros [|t1] [|t2] Hne H1 H2 Hf1 Hf2;
    simplify_eq/=.
  - rewrite Hf1. pose proof (count_lookup f l t2 th2 H2 Hf2). simpl. lia.
  - rewrite Hf2. pose proof (count_lookup f l t1 th1 H1 Hf1). simpl. lia.
  - assert (t1 <> t2) as Hne' by congruence.
    specialize (IH t1 t2 Hne' H1 H2 Hf1 Hf2). lia.
Qed.

(** ** The invariant *)

(** The call registered under the key, if any. *)
Definition reg st : option nat := m st ≫= (fun mp => mp !! k).

Definition reg_n (r : option nat) : nat :=
  match r with Some _ => 1%nat | None => 0%nat end.

(** What a goroutine at [p] can rely on: the map entry, the counter of
    its call, and whether the [fn] of its call has run. *)
Definition pc_ok (rg : option nat) (hp : list (@call R)) (rn : list (nat * R)) p
    : Prop :=
  match p with
  | Enter | Locked => True
  | Miss => rg = None
  | Hit c | Waiting c => (c < length hp)%nat
  | Inserted c | Calling c =>
      rg = Some c /\ (exists cl, hp !! c = Some cl /\ wg cl = 1) /\ c ∉ rn.*1
  | Finishing c =>
      rg = Some c /\ exists cl, hp !! c = Some cl /\ wg cl = 1 /\ (c, res cl) ∈ rn
  | Relock c | Deleting c =>
      rg = Some c /\ exists cl, hp !! c = Some cl /\ wg cl = 0 /\ (c, res cl) ∈ rn
  | Deleted c | Returning c =>
      exists cl, hp !! c = Some cl /\ wg cl = 0 /\ (c, res cl) ∈ rn
  | Done c r =>
      exists cl, hp !! c = Some cl /\ wg cl = 0 /\ res cl = r /\ (c, r) ∈ rn
  end.

Record Inv_sf st : Prop := mkInv_sf {
  sf_keys : Forall (fun th => c_key th = k) (callers st);
  sf_mu : count holds (callers st) = b2n (mu st);
  sf_lead : count leading (callers st) = reg_n (reg st);
  sf_gen : length (heap st) = (deleted st + count leading (callers st))%nat;
  sf_pend : (length (runs st) + count pending (callers st))%nat = length (heap st);
  sf_nodup : NoDup (runs st).*1;
  sf_runs : forall c, c ∈ (runs st).*1 -> (c < length (heap st))%nat;
  sf_heap : forall c cl, heap st !! c = Some cl -> wg cl = 0 -> (c, res cl) ∈ runs st;
  sf_reg : forall c, reg st = Some c -> (c < length (heap st))%nat;
  sf_pcs : forall t th, callers st !! t = Some th ->
             pc_ok (reg st) (heap st) (runs st) (c_pc th)
}.

Lemma count_init f (fns : list (W -> R * W)) :
  f Enter = false ->
  count f ((fun fn => mkCaller k fn Enter) <$> fns) = 0%nat.
Proof.
  intros Hf. induction fns as [|fn fns IH]; [done|].
  rewrite fmap_cons. cbn [count c_pc]. by rewrite Hf, IH.
Qed.

Lemma Inv_sf_init fns w : Inv_sf (init k fns w).
Proof.
  split; simpl.
  - apply Forall_fmap, Forall_forall. done.
  - by apply count_init.
  - by apply count_init.
  - by rewrite count_init.
  - by rewrite count_init.
  - apply NoDup_nil_2.
  - intros c Hc. by apply elem_of_nil in Hc.
  - intros c cl Hc. by rewrite lookup_nil in Hc.
  - done.
  - intros t th Hl. rewrite list_lookup_fmap in Hl.
    destruct (fns !! t); by simplify_eq/=.
Qed.

(** ** One step *)

Lemma reg_n_le r : (reg_n r <= 1)%nat.
Proof. destruct r; simpl; lia. Qed.

Lemma b2n_le b : (b2n b <= 1)%nat.
Proof. destruct b; simpl; lia. Qed.

(** Where a count is at most one, a second goroutine is not counted. *)
Lemma count_other f l t th t' th' :
  (count f l <= 1)%nat -> l !! t = Some th -> f (c_pc th) = true ->
  t' <> t -> l !! t' = Some th' -> f (c_pc th') = false.
Proof.
  intros Hle Ht Hf Hne Ht'. destruct (f (c_pc th')) eqn:Hf'; [|done].
  pose proof (count_lookup2 f l t' t th' th Hne Ht' Ht Hf' Hf). lia.
Qed.

Lemma set_pc_lookup st t th p' t' th' :
  callers st !! t = Some th ->
  set_pc t th p' st !! t' = Some th' ->
  (t' = t /\ th' = at_pc th p') \/ (t' <> t /\ callers st !! t' = Some th').
Proof.
  intros Ht Hl. unfold set_pc in Hl. destruct (decide (t' = t)) as [->|Hne].
  - left. split; [done|].
    rewrite list_lookup_insert_eq in Hl by (by eapply lookup_lt_Some).
    by simplify_eq.
  - right. split; [done|]. by rewrite list_lookup_insert_ne in Hl.
Qed.

(** The facts of the other goroutines survive each kind of change. *)
Lemma pc_ok_alloc hp rn p (cl : @call R) :
  pc_ok None hp rn p -> holds p = false ->
  pc_ok (Some (length hp)) (hp ++ [cl]) rn p.
Proof.
  destruct p; simpl; try done; intros Hok _.
  - rewrite length_app. simpl. lia.
  - by destruct Hok.
  - by destruct Hok.
  - by destruct Hok.
  - destruct Hok as (cl' & Hl & Hrest). exists cl'. split; [|done].
    by apply lookup_app_l_Some.
  - destruct Hok as (cl' & Hl & Hrest). exists cl'. split; [|done].
    by apply lookup_app_l_Some.
Qed.

Lemma elem_of_runs_fst (rn : list (nat * R)) c r : (c, r) ∈ rn -> c ∈ rn.*1.
Proof. intros Hin. by apply (list_elem_of_fmap_2 fst) in Hin. Qed.

Lemma pc_ok_ran c hp rn p r :
  pc_ok (Some c) hp rn p -> leading p = false -> c ∉ rn.*1 ->
  pc_ok (Some c) (alter (fun cl => mkCall (wg cl) r) c hp) (rn ++ [(c, r)]) p.
Proof.
  destruct p as [| |c'|c'| |c'|c'|c'|c'|c'|c'|c'|c' r']; simpl; try done;
    intros Hok _ Hc.
  - by rewrite length_alter.
  - by rewrite length_alter.
  - destruct Hok as (cl' & Hl & Hw & Hr). exists cl'.
    assert (c' <> c) as Hne by (intros ->; apply Hc; by eapply elem_of_runs_fst).
    rewrite list_lookup_alter_ne by done. split_and!; [done | done |].
    apply elem_of_app. by left.
  - destruct Hok as (cl' & Hl & Hw & Hr). exists cl'.
    assert (c' <> c) as Hne by (intros ->; apply Hc; by eapply elem_of_runs_fst).
    rewrite list_lookup_alter_ne by done. split_and!; [done | done |].
    apply elem_of_app. by left.
  - destruct Hok as (cl' & Hl & Hw & He & Hr). exists cl'.
    assert (c' <> c) as Hne by (intros ->; apply Hc; by eapply elem_of_runs_fst).
    rewrite list_lookup_alter_ne by done. split_and!; [done | done | done |].
    apply elem_of_app. by left.
Qed.

Lemma pc_ok_finished c hp rn p (cl : @call R) :
  pc_ok (Some c) hp rn p -> leading p = false ->
  hp !! c = Some cl -> wg cl = 1 ->
  pc_ok (Some c) (alter (fun cl => mkCall (wg cl - 1) (res cl)) c hp) rn p.
Proof.
  destruct p as [| |c'|c'| |c'|c'|c'|c'|c'|c'|c'|c' r']; simpl; try done;
    intros Hok _ Hcl Hwg.
  - by rewrite length_alter.
  - by rewrite length_alter.
  - destruct Hok as (cl' & Hl & Hw & Hr). exists cl'.
    assert (c' <> c) as Hne by (intros ->; simplify_eq; lia).
    by rewrite list_lookup_alter_ne.
  - destruct Hok as (cl' & Hl & Hw & Hr). exists cl'.
    assert (c' <> c) as Hne by (intros ->; simplify_eq; lia).
    by rewrite list_lookup_alter_ne.
  - destruct Hok as (cl' & Hl & Hw & Hr). exists cl'.
    assert (c' <> c) as Hne by (intros ->; simplify_eq; lia).
    by rewrite list_lookup_alter_ne.
Qed.

Lemma pc_ok_unreg c hp rn p :
  pc_ok (Some c) hp rn p -> leading p = false -> pc_ok None hp rn p.
Proof. destruct p; simpl; done. Qed.

Lemma reg_lazy (mo : option (gmap string nat)) :
  Some (default ∅ mo) ≫= (fun mp => mp !! k) = mo ≫= (fun mp => mp !! k).
Proof. destruct mo; simpl; [done | by rewrite lookup_empty]. Qed.

Lemma reg_delete (mo : option (gmap string nat)) :
  (delete k <$> mo) ≫= (fun mp => mp !! k) = None.
Proof. destruct mo; simpl; [by rewrite lookup_delete_eq | done]. Qed.

Ltac sf_split := split; unfold reg; sf_fields; cbn [b2n].

(** Every step keeps the invariant. *)
Lemma step_Inv_sf st t st' : Inv_sf st -> step zero t st = Some st' -> Inv_sf st'.
Proof.
  intros HI Hstep. unfold step in Hstep.
  destruct (callers st !! t) as [th|] eqn:Ht; [|done].
  pose proof (sf_pcs _ HI t th Ht) as Hok.
  assert (c_key th = k) as Hkey.
  { pose proof (sf_keys _ HI) as Hk. rewrite Forall_forall in Hk.
    apply Hk. by eapply list_elem_of_lookup_2. }
  destruct HI as [Hkeys Hmu Hlead Hgen Hpend Hnd Hruns Hheap Hreg Hpcs].
  assert (forall p', Forall (fun th => c_key th = k) (set_pc t th p' st)) as Hkeys'.
  { intros p'. unfold set_pc. apply Forall_insert; [done | by simpl]. }
  pose proof (fun p' => count_insert holds (callers st) t th (at_pc th p') Ht) as Hch.
  pose proof (fun p' => count_insert leading (callers st) t th (at_pc th p') Ht) as Hcl.
  pose proof (fun p' => count_insert pending (callers st) t th (at_pc th p') Ht) as Hcp.
  pose proof (reg_n_le (reg st)) as Hrn. pose proof (b2n_le (mu st)) as Hbn.
  assert (forall f, f (c_pc th) = true -> (count f (callers st) <= 1)%nat ->
            forall t' th', t' <> t -> callers st !! t' = Some th' ->
                           f (c_pc th') = false) as Hother.
  { intros f Hf Hle t' th' Hne Hl.
    exact (count_other f _ t th t' th' Hle Ht Hf Hne Hl). }
  unfold reg, set_pc in *.
  destruct (c_pc th) as [| |c|c| |c|c|c|c|c|c|c|c r] eqn:Hpc; simpl in Hstep.
  - (* Enter: Lock *)
    destruct (mu st) eqn:Hm; [done|]. simplify_eq.
    specialize (Hch Locked). specialize (Hcl Locked). specialize (Hcp Locked).
    simpl in *. sf_split; try done; try lia.
    intros t' th' Hl.
    apply (set_pc_lookup _ _ _ _ _ _ Ht) in Hl as [[-> ->] | [Hne Hl]]; [done|].
    by eapply Hpcs.
  - (* Locked: lazy make, lookup *)
    simplify_eq. rewrite Hkey.
    set (p' := match default ∅ (m st) !! k with Some c => Hit c | None => Miss end).
    assert (holds p' = true /\ leading p' = false /\ pending p' = false)
      as (Hh & Hl' & Hp') by (unfold p'; by destruct (default ∅ (m st) !! k)).
    specialize (Hch p'). specialize (Hcl p'). specialize (Hcp p').
    simpl in Hch, Hcl, Hcp. rewrite ?Hh, ?Hl', ?Hp' in *. simpl in *.
    sf_split; rewrite ?reg_lazy; try done; try lia.
    intros t' th' Hl.
    apply (set_pc_lookup _ _ _ _ _ _ Ht) in Hl as [[-> ->] | [Hne Hl]];
      [|by eapply Hpcs].
    simpl. unfold p'.
    assert (m st ≫= (fun mp => mp !! k) = default ∅ (m st) !! k) as Hrk
      by (destruct (m st); simpl; [done | by rewrite lookup_empty]).
    rewrite <- Hrk.
    destruct (m st ≫= (fun mp => mp !! k)) as [c|] eqn:Hrs; simpl;
      [by apply Hreg | done].
  - (* Hit: Unlock *)
    simplify_eq.
    specialize (Hch (Waiting c)). specialize (Hcl (Waiting c)).
    specialize (Hcp (Waiting c)). simpl in *.
    pose proof (count_lookup holds _ _ _ Ht ltac:(by rewrite Hpc)).
    sf_split; try done; try lia.
    intros t' th' Hl.
    apply (set_pc_lookup _ _ _ _ _ _ Ht) in Hl as [[-> ->] | [Hne Hl]]; [done|].
    by eapply Hpcs.
  - (* Waiting: Wait *)
    destruct (heap st !! c) as [cl|] eqn:Hcl0; [|done].
    destruct (decide (wg cl = 0)) as [Hw|]; [|done]. simplify_eq.
    specialize (Hch (Returning c)). specialize (Hcl (Returning c)).
    specialize (Hcp (Returning c)). simpl in *.
    sf_split; try done; try lia.
    intros t' th' Hl.
    apply (set_pc_lookup _ _ _ _ _ _ Ht) in Hl as [[-> ->] | [Hne Hl]];
      [|by eapply Hpcs].
    simpl. exists cl. split_and!; [done | done | by apply Hheap].
  - (* Miss: new(call), Add(1), insert *)
    simplify_eq. rewrite Hkey. simpl in Hok.
    set (c := length (heap st)).
    specialize (Hch (Inserted c)). specialize (Hcl (Inserted c)).
    specialize (Hcp (Inserted c)). simpl in *.
    rewrite Hok in Hlead. simpl in Hlead.
    sf_split; cbn [mbind option_bind]; rewrite ?lookup_insert_eq, ?length_app;
      simpl; try done; try lia.
    + intros c' Hc'. specialize (Hruns c' Hc'). lia.
    + intros c' cl Hl Hw. apply lookup_app_Some in Hl as [Hl | [_ Hl]].
      * by apply Hheap.
      * apply list_lookup_singleton_Some in Hl as [_ <-]. simpl in Hw. lia.
    + intros c' [= <-]. lia.
    + intros t' th' Hl.
      apply (set_pc_lookup _ _ _ _ _ _ Ht) in Hl as [[-> ->] | [Hne Hl]].
      * simpl. split_and!; [done | |].
        -- exists (mkCall 1 zero). split; [|done].
           rewrite lookup_app_r by done. by rewrite Nat.sub_diag.
        -- intros Hc. apply Hruns in Hc. lia.
      * apply pc_ok_alloc.
        -- rewrite <- Hok. by eapply Hpcs.
        -- eapply (Hother holds); [done | lia | done | done].
  - (* Inserted: Unlock *)
    simplify_eq.
    specialize (Hch (Calling c)). specialize (Hcl (Calling c)).
    specialize (Hcp (Calling c)). simpl in *.
    pose proof (count_lookup holds _ _ _ Ht ltac:(by rewrite Hpc)).
    sf_split; try done; try lia.
    intros t' th' Hl.
    apply (set_pc_lookup _ _ _ _ _ _ Ht) in Hl as [[-> ->] | [Hne Hl]]; [done|].
    by eapply Hpcs.
  - (* Calling: fn() *)
    destruct (c_fn th (world st)) as [r w'] eqn:Hfn. simplify_eq.
    simpl in Hok. destruct Hok as (Hrg & (cl & Hcl0 & Hw) & Hnr).
    specialize (Hch (Finishing c)). specialize (Hcl (Finishing c)).
    specialize (Hcp (Finishing c)). simpl in *.
    sf_split; rewrite ?length_alter, ?length_app; simpl;
      try done; try lia.
    + rewrite fmap_app. simpl. apply NoDup_app. split_and!; [done | | ].
      * intros x Hx Hx'. apply list_elem_of_singleton in Hx'. by subst.
      * apply NoDup_singleton.
    + intros c' Hc'. rewrite fmap_app in Hc'. apply elem_of_app in Hc' as [Hc' | Hc'].
      * by apply Hruns.
      * apply list_elem_of_singleton in Hc'. subst. simpl.
        by eapply lookup_lt_Some.
    + intros c' cl' Hl Hw'. apply elem_of_app.
      destruct (decide (c' = c)) as [->|Hne].
      * rewrite list_lookup_alter_eq, Hcl0 in Hl. simplify_eq/=. lia.
      * rewrite list_lookup_alter_ne in Hl by done. left. by apply Hheap.
    + intros t' th' Hl.
      apply (set_pc_lookup _ _ _ _ _ _ Ht) in Hl as [[-> ->] | [Hne Hl]].
      * simpl. split; [done|]. exists (mkCall (wg cl) r).
        rewrite list_lookup_alter_eq, Hcl0. simpl. split_and!; [done | done |].
        apply elem_of_app. right. by apply list_elem_of_singleton.
      * rewrite Hrg. apply pc_ok_ran; [| | done].
        -- rewrite <- Hrg. by eapply Hpcs.
        -- eapply (Hother leading); [done | lia | done | done].
  - (* Finishing: Done() *)
    simplify_eq. simpl in Hok. destruct Hok as (Hrg & cl & Hcl0 & Hw & Hr0).
    specialize (Hch (Relock c)). specialize (Hcl (Relock c)).
    specialize (Hcp (Relock c)). simpl in *.
    sf_split; rewrite ?length_alter; simpl; try done; try lia.
    + intros c' cl' Hl Hw'.
      destruct (decide (c' = c)) as [->|Hne].
      * rewrite list_lookup_alter_eq, Hcl0 in Hl. by simplify_eq/=.
      * rewrite list_lookup_alter_ne in Hl by done. by apply Hheap.
    + intros t' th' Hl.
      apply (set_pc_lookup _ _ _ _ _ _ Ht) in Hl as [[-> ->] | [Hne Hl]].
      * simpl. split; [done|]. exists (mkCall (wg cl - 1) (res cl)).
        rewrite list_lookup_alter_eq, Hcl0. simpl. split_and!; [done | lia | done].
      * rewrite Hrg. apply (pc_ok_finished _ _ _ _ cl); [| | done | done].
        -- rewrite <- Hrg. by eapply Hpcs.
        -- eapply (Hother leading); [done | lia | done | done].
  - (* Relock: Lock *)
    destruct (mu st) eqn:Hm; [done|]. simplify_eq.
    specialize (Hch (Deleting c)). specialize (Hcl (Deleting c)).
    specialize (Hcp (Deleting c)). simpl in *.
    sf_split; try done; try lia.
    intros t' th' Hl.
    apply (set_pc_lookup _ _ _ _ _ _ Ht) in Hl as [[-> ->] | [Hne Hl]]; [done|].
    by eapply Hpcs.
  - (* Deleting: delete *)
    simplify_eq. rewrite Hkey. simpl in Hok.
    destruct Hok as (Hrg & cl & Hcl0 & Hw & Hr0).
    specialize (Hch (Deleted c)). specialize (Hcl (Deleted c)).
    specialize (Hcp (Deleted c)). simpl in *.
    rewrite Hrg in Hlead. simpl in Hlead.
    sf_split; rewrite ?reg_delete; simpl; try done; try lia.
    intros t' th' Hl.
    apply (set_pc_lookup _ _ _ _ _ _ Ht) in Hl as [[-> ->] | [Hne Hl]].
    + simpl. by exists cl.
    + apply (pc_ok_unreg c).
      * rewrite <- Hrg. by eapply Hpcs.
      * eapply (Hother leading); [done | lia | done | done].
  - (* Deleted: Unlock *)
    simplify_eq.
    specialize (Hch (Returning c)). specialize (Hcl (Returning c)).
    specialize (Hcp (Returning c)). simpl in *.
    pose proof (count_lookup holds _ _ _ Ht ltac:(by rewrite Hpc)).
    sf_split; try done; try lia.
    intros t' th' Hl.
    apply (set_pc_lookup _ _ _ _ _ _ Ht) in Hl as [[-> ->] | [Hne Hl]]; [done|].
    by eapply Hpcs.
  - (* Returning: return c.val, c.err *)
    destruct (heap st !! c) as [cl|] eqn:Hcl0; [|done]. simplify_eq.
    simpl in Hok. destruct Hok as (cl' & Hcl1 & Hw & Hr0). simplify_eq.
    specialize (Hch (Done c (res cl))). specialize (Hcl (Done c (res cl))).
    specialize (Hcp (Done c (res cl))). simpl in *.
    sf_split; try done; try lia.
    intros t' th' Hl.
    apply (set_pc_lookup _ _ _ _ _ _ Ht) in Hl as [[-> ->] | [Hne Hl]];
      [|by eapply Hpcs].
    simpl. by exists cl.
  - done.
Qed.

(** ** Every schedule *)

Lemma run_Inv_sf sched : forall st st',
  Inv_sf st -> run zero sched st = Some st' -> Inv_sf st'.
Proof.
  induction sched as [|t sched IH]; intros st st' HI Hrun; simpl in Hrun.
  - by simplify_eq.
  - destruct (step zero t st) as [st1|] eqn:Hstep; [|done].
    eapply IH; [|done]. by eapply step_Inv_sf.
Qed.

Lemma count_none f l :
  Forall (fun th => f (c_pc th) = false) l -> count f l = 0%nat.
Proof.
  induction 1 as [|th l Hf _ IH]; [done|]. cbn [count]. by rewrite Hf, IH.
Qed.

(** What the invariant says about the executions of [fn] and about what
    the callers return. *)
Lemma Inv_sf_facts st :
  Inv_sf st ->
  NoDup (runs st).*1 /\
  (forall c, c ∈ (runs st).*1 -> (c < length (heap st))%nat) /\
  (length (runs st) <= length (heap st) <= deleted st + 1)%nat /\
  (forall t th c r, callers st !! t = Some th -> c_pc th = Done c r ->
      (c, r) ∈ runs st /\ (c < length (heap st))%nat) /\
  (forall t1 t2 th1 th2 c r1 r2,
      callers st !! t1 = Some th1 -> callers st !! t2 = Some th2 ->
      c_pc th1 = Done c r1 -> c_pc th2 = Done c r2 -> r1 = r2) /\
  (Forall (fun th => exists c r, c_pc th = Done c r) (callers st) ->
      length (runs st) = length (heap st)) /\
  (deleted st = 0%nat ->
      (length (runs st) <= 1)%nat /\
      forall t th c r, callers st !! t = Some th -> c_pc th = Done c r ->
                       c = 0%nat).
Proof.
  intros [Hkeys Hmu Hlead Hgen Hpend Hnd Hruns Hheap Hreg Hpcs].
  pose proof (reg_n_le (reg st)).
  split_and!; [done | done | lia | lia | | | |].
  - intros t th c r Ht Hpc. specialize (Hpcs t th Ht). rewrite Hpc in Hpcs.
    destruct Hpcs as (cl & Hcl & _ & _ & Hr). split; [done|].
    by eapply lookup_lt_Some.
  - intros t1 t2 th1 th2 c r1 r2 Ht1 Ht2 Hpc1 Hpc2.
    pose proof (Hpcs t1 th1 Ht1) as H1. pose proof (Hpcs t2 th2 Ht2) as H2.
    rewrite Hpc1 in H1. rewrite Hpc2 in H2.
    destruct H1 as (cl1 & Hcl1 & _ & <- & _).
    destruct H2 as (cl2 & Hcl2 & _ & <- & _). congruence.
  - intros Hdone. rewrite <- Hpend.
    rewrite (count_none pending); [lia|].
    eapply Forall_impl; [exact Hdone|]. intros th (c & r & ->). done.
  - intros Hdel. split; [lia|].
    intros t th c r Ht Hpc. specialize (Hpcs t th Ht). rewrite Hpc in Hpcs.
    destruct Hpcs as (cl & Hcl & _). apply lookup_lt_Some in Hcl. lia.
Qed.

Lemma run_app sched1 sched2 st :
  run zero (sched1 ++ sched2) st = run zero sched1 st ≫= run zero sched2.
Proof.
  revert st. induction sched1 as [|t sched1 IH]; intros st; [done|].
  simpl. destruct (step zero t st); [apply IH | done].
Qed.

(** A caller on its own goes through [Do] in ten steps and returns what
    its [fn] returned. *)
Lemma Do_alone (fn : W -> R * W) (w : W) :
  exists st,
    run zero (replicate 10 0%nat) (init k [fn] w) = Some st /\
    c_pc <$> callers st = [Done 0 (fn w).1] /\
    world st = (fn w).2 /\ runs st = [(0%nat, (fn w).1)] /\
    m st = Some ∅ /\ mu st = false.
Proof.
  destruct (fn w) as [r w'] eqn:Hfn.
  pose (st4 := {| mu := false; m := Some (<[k := 0%nat]> ∅);
                  heap := [mkCall 1 zero]; world := w;
                  callers := [mkCaller k fn (Calling 0)];
                  runs := []; deleted := 0 |}).
  pose (st5 := {| mu := false; m := Some (<[k := 0%nat]> ∅);
                  heap := [mkCall 1 r]; world := w';
                  callers := [mkCaller k fn (Finishing 0)];
                  runs := [(0%nat, r)]; deleted := 0 |}).
  pose (st10 := {| mu := false; m := Some (delete k (<[k := 0%nat]> ∅));
                   heap := [mkCall 0 r]; world := w';
                   callers := [mkCaller k fn (Done 0 r)];
                   runs := [(0%nat, r)]; deleted := 1 |}).
  assert (run zero (replicate 4 0%nat) (init k [fn] w) = Some st4) as H4.
  { simpl. rewrite lookup_empty. reflexivity. }
  assert (step zero 0 st4 = Some st5) as H5.
  { unfold step, st4. simpl. rewrite Hfn. reflexivity. }
  assert (run zero (replicate 5 0%nat) st5 = Some st10) as H10 by reflexivity.
  exists st10. split.
  - change (replicate 10 0%nat) with (replicate 4 0%nat ++ 0%nat :: replicate 5 0%nat).
    rewrite run_app, H4. simpl run. simpl mbind. rewrite H5. exact H10.
  - simpl. by rewrite delete_insert_eq, delete_empty.
Qed.

(** ** A record is deleted only after its [fn] has run *)

Lemma count_le f f' l :
  (forall p, f p = true -> f' p = true) -> (count f l <= count f' l)%nat.
Proof.
  intros Hf. induction l as [|th l IH]; [done|]. cbn [count].
  destruct (f (c_pc th)) eqn:E; [rewrite (Hf _ E) | destruct (f' (c_pc th))];
    simpl; lia.
Qed.

Lemma deleted_le_runs st : Inv_sf st -> (deleted st <= length (runs st))%nat.
Proof.
  intros HI. pose proof (sf_gen _ HI). pose proof (sf_pend _ HI).
  pose proof (count_le pending leading (callers st)) as Hle.
  assert (count pending (callers st) <= count leading (callers st))%nat
    by (apply Hle; by intros []).
  lia.
Qed.

(** ** Callers that hold or held the mutex before the first [delete] *)

(** The caller at [p] is, or is bound to be, on the first record. *)
Definition on_first st p : Prop :=
  match p with
  | Enter => False
  | Locked => deleted st = 0%nat
  | Miss => heap st = []
  | Hit c | Waiting c | Inserted c | Calling c | Finishing c | Relock c
  | Deleting c | Deleted c | Returning c | Done c _ => c = 0%nat
  end.

Lemma on_first_start st t th :
  Inv_sf st -> deleted st = 0%nat ->
  callers st !! t = Some th -> c_pc th <> Enter -> on_first st (c_pc th).
Proof.
  intros HI Hdel Ht Hne. pose proof (sf_pcs _ HI t th Ht) as Hok.
  pose proof (sf_gen _ HI) as Hgen. pose proof (sf_lead _ HI) as Hlead.
  pose proof (reg_n_le (reg st)) as Hreg.
  assert (forall c, c < length (heap st) -> c = 0)%nat as Hsmall by lia.
  destruct (c_pc th) as [| |c|c| |c|c|c|c|c|c|c|c r]; cbn [on_first pc_ok] in *;
    try done; try (by apply Hsmall).
  - rewrite Hok in Hlead. simpl in Hlead. apply length_zero_iff_nil. lia.
  - apply Hsmall, (sf_reg _ HI). apply Hok.
  - apply Hsmall, (sf_reg _ HI). apply Hok.
  - apply Hsmall, (sf_reg _ HI). apply Hok.
  - apply Hsmall, (sf_reg _ HI). apply Hok.
  - apply Hsmall, (sf_reg _ HI). apply Hok.
  - destruct Hok as (cl & Hcl & _). by apply Hsmall, (lookup_lt_Some _ _ _ Hcl).
  - destruct Hok as (cl & Hcl & _). by apply Hsmall, (lookup_lt_Some _ _ _ Hcl).
  - destruct Hok as (cl & Hcl & _). by apply Hsmall, (lookup_lt_Some _ _ _ Hcl).
Qed.

Lemma step_on_first st t' st' t th :
  Inv_sf st -> step zero t' st = Some st' ->
  callers st !! t = Some th -> on_first st (c_pc th) ->
  exists th', callers st' !! t = Some th' /\ on_first st' (c_pc th').
Proof.
  intros HI Hstep Ht Hon. unfold step in Hstep.
  destruct (callers st !! t') as [th0|] eqn:Ht'; [|done].
  pose proof (sf_gen _ HI) as Hgen. pose proof (sf_lead _ HI) as Hlead.
  pose proof (reg_n_le (reg st)) as Hreg.
  destruct (decide (t' = t)) as [-> | Hne].
  - assert (th0 = th) as -> by congruence.
    assert (forall p', on_first st' p' ->
              callers st' = set_pc t th p' st ->
              exists th', callers st' !! t = Some th' /\ on_first st' (c_pc th'))
      as Hmove.
    { intros p' Hp' ->. exists (at_pc th p'). split; [|done].
      unfold set_pc. apply list_lookup_insert_eq. by eapply lookup_lt_Some. }
    pose proof (sf_pcs _ HI t th Ht) as Hok.
    assert (c_key th = k) as Hkey.
    { pose proof (sf_keys _ HI) as Hk. rewrite Forall_forall in Hk.
      apply Hk. by eapply list_elem_of_lookup_2. }
    destruct (c_pc th) as [| |c|c| |c|c|c|c|c|c|c|c r] eqn:Hpc;
      cbn [on_first pc_ok] in *; try done;
      repeat case_match; simplify_eq;
      (eapply Hmove; [|reflexivity]); cbn [on_first]; sf_fields; try done.
    + assert (reg st = Some n) as Hr.
      { unfold reg. rewrite <- Hkey.
        destruct (m st) as [mp|]; simpl in *; [done|].
        by rewrite lookup_empty in *. }
      pose proof (sf_reg _ HI _ Hr). lia.
    + assert (reg st = None) as Hr.
      { unfold reg. rewrite <- Hkey.
        destruct (m st) as [mp|]; simpl in *; done. }
      rewrite Hr in Hlead. simpl in Hlead. apply length_zero_iff_nil. lia.
    + by rewrite Hon.
  - exists th. split.
    { destruct (c_pc th0); repeat case_match; simplify_eq; sf_fields;
        unfold set_pc; by rewrite list_lookup_insert_ne. }
    assert (holds (c_pc th) = true -> holds (c_pc th0) = false) as Hexcl.
    { intros Hh. apply (count_other holds (callers st) t th t' th0); try done.
      rewrite (sf_mu _ HI). apply b2n_le. }
    destruct (c_pc th) as [| |c|c| |c|c|c|c|c|c|c|c r] eqn:Hpc;
      cbn [on_first] in *; try done.
    + specialize (Hexcl eq_refl).
      destruct (c_pc th0); repeat case_match; simplify_eq; sf_fields; done.
    + specialize (Hexcl eq_refl).
      destruct (c_pc th0); repeat case_match; simplify_eq; sf_fields;
        try done; by rewrite Hon.
Qed.

Lemma run_on_first sched : forall st st' t th,
  Inv_sf st -> run zero sched st = Some st' ->
  callers st !! t = Some th -> on_first st (c_pc th) ->
  exists th', callers st' !! t = Some th' /\ on_first st' (c_pc th').
Proof.
  induction sched as [|t' sched IH]; intros st st' t th HI Hrun Ht Hon;
    simpl in Hrun.
  - simplify_eq. by exists th.
  - destruct (step zero t' st) as [st1|] eqn:Hstep; [|done].
    destruct (step_on_first st t' st1 t th HI Hstep Ht Hon) as (th1 & Ht1 & Hon1).
    eapply IH; [by eapply step_Inv_sf | done | done | done].
Qed.

(** Callers that have taken the mutex of their [Do] while no [fn] has
    completed all end on the first record. *)
Lemma first_generation fns w sched1 sched2 st1 st t th1 th c r :
  run zero sched1 (init k fns w) = Some st1 ->
  run zero sched2 st1 = Some st ->
  runs st1 = [] ->
  callers st1 !! t = Some th1 -> c_pc th1 <> Enter ->
  callers st !! t = Some th -> c_pc th = Done c r ->
  c = 0%nat /\ (0%nat, r) ∈ runs st.
Proof.
  intros Hrun1 Hrun2 Hruns Ht1 Hne Ht Hpc.
  assert (Inv_sf st1) as HI1 by (eapply run_Inv_sf; [apply Inv_sf_init | done]).
  assert (Inv_sf st) as HI by (by eapply run_Inv_sf).
  assert (deleted st1 = 0%nat) as Hdel.
  { pose proof (deleted_le_runs st1 HI1) as Hle. rewrite Hruns in Hle.
    simpl in Hle. lia. }
  pose proof (on_first_start st1 t th1 HI1 Hdel Ht1 Hne) as Hon1.
  destruct (run_on_first sched2 st1 st t th1 HI1 Hrun2 Ht1 Hon1)
    as (th' & Ht' & Hon).
  assert (th' = th) as -> by congruence. rewrite Hpc in Hon.
  cbn [on_first] in Hon. subst c. split; [done|].
  pose proof (sf_pcs _ HI t th Ht) as Hok. rewrite Hpc in Hok.
  destruct Hok as (cl & _ & _ & _ & Hr). done.
Qed.

End singleflight_theory.

(* ===================================================================== *)
(** * geecache: concurrent calls of [Get]                                *)
(* ===================================================================== *)

Section group_concurrency.
Import geecache.

(** A call alone takes at most five steps, and they are [Get]. *)
Lemma Get_from_Get {W : Type} (g : @Group W) key w :
  Get_from 5 key GStart g w = Get g key w.
Proof.
  unfold Get, load, getLocally. cbn [Get_from Get_step].
  destruct (decide (key = "")); [done|].
  destruct (cache_get key (mainCache g)) as [[v|] c]; [done|].
  set (g1 := set_mainCache g c). cbn [Get_from Get_step].
  destruct (peers g1) as [pick|]; cbn [Get_from Get_step].
  - destruct (pick key w) as [[peer|] w1]; cbn [Get_from Get_step].
    + destruct (getFromPeer g1 peer key w1) as [[value [e|]] w2];
        cbn [Get_from Get_step]; [|done].
      destruct (getter g1 key w2) as [[bs [e'|]] w3]; cbn [Get_from Get_step];
        [done|].
      by destruct (populateCache key (mkByteView (cloneBytes bs)) g1).
    + destruct (getter g1 key w1) as [[bs [e'|]] w3]; cbn [Get_from Get_step];
        [done|].
      by destruct (populateCache key (mkByteView (cloneBytes bs)) g1).
  - destruct (getter g1 key w) as [[bs [e'|]] w3]; cbn [Get_from Get_step];
      [done|].
    by destruct (populateCache key (mkByteView (cloneBytes bs)) g1).
Qed.

(** A miss goes straight to [load]. *)
Lemma Get_miss {W : Type} (g : @Group W) key w :
  key <> "" -> (cache_get key (mainCache g)).1 = None ->
  Get g key w = load (set_mainCache g (cache_get key (mainCache g)).2) key w.
Proof.
  intros Hk Hmiss. unfold Get. rewrite decide_False by done.
  destruct (cache_get key (mainCache g)) as [[v|] c]; simpl in *; done.
Qed.

(** C1 as stated fails: [Group] has no single-flight field and [Get]
    calls [load] itself. Two goroutines call [gee.Get("Tom")]; both miss
    the shell before either has loaded, and the loader then runs once for
    each of them: [loadCounts["Tom"]] ends at 2. *)
Lemma C1_counterexample :
  let st0 := mkGstate gee ∅ [("Tom", GStart); ("Tom", GStart)] in
  (g_calls <$> grun [0; 1]%nat st0) = Some [("Tom", GLoad); ("Tom", GLoad)] /\
  (g_world <$> grun [0; 1]%nat st0) = Some ∅ /\
  (g_calls <$> grun [0; 1; 0; 1; 0; 1; 0; 1]%nat st0) =
    Some [("Tom", GDone (mkByteView "630", None));
          ("Tom", GDone (mkByteView "630", None))] /\
  (g_world <$> grun [0; 1; 0; 1; 0; 1; 0; 1]%nat st0) =
    Some {[ "Tom" := 2%nat ]}.
Proof. cbv zeta. split_and!; by vm_compute. Qed.

(** C1 (single flight), amended. [Group.Get] on a miss calls [load(key)]
    directly, once for every call that misses. The coalescing is a
    property of [singleflight.Group.Do] alone: for goroutines that all call
    [Do] with the same key on a zero [Group], under every interleaving,
    - no call record has its [fn] executed twice, and [fn] is executed
      only for a record that was created;
    - at most one record exists that has not been deleted: a second one
      is created only after the [delete] of the first, so all callers
      that look the key up before that [delete] share one record and one
      execution of [fn];
    - a caller that has returned got the value [fn] produced for its
      record, and two callers on the same record got the same value;
    - when all have returned, [fn] ran exactly once for each record;
    - until the first [delete], [fn] has run at most once and every
      caller that has returned is on the first record;
    - a record is deleted only after its [fn] has been executed: there
      are never more [delete]s than executions;
    - callers that have taken the mutex of their [Do] before the first
      [fn] completes all return what that one execution produced: each
      of them ends on the first record, with the value [fn] returned for
      it. *)
Theorem C1_single_flight :
  (forall (W : Type) (g : @Group W) key w,
      key <> "" -> (cache_get key (mainCache g)).1 = None ->
      Get g key w = load (set_mainCache g (cache_get key (mainCache g)).2) key w) /\
  (forall (R W : Type) (zero : R) (k : string) (fns : list (W -> R * W)) (w : W)
          (sched : list nat) (st : @singleflight.state R W),
      singleflight.run zero sched (singleflight.init k fns w) = Some st ->
      NoDup (singleflight.runs st).*1 /\
      (forall c, c ∈ (singleflight.runs st).*1 ->
                 (c < length (singleflight.heap st))%nat) /\
      (length (singleflight.runs st) <= length (singleflight.heap st)
         <= singleflight.deleted st + 1)%nat /\
      (forall t th c r,
          singleflight.callers st !! t = Some th ->
          singleflight.c_pc th = singleflight.Done c r ->
          (c, r) ∈ singleflight.runs st /\
          (c < length (singleflight.heap st))%nat) /\
      (forall t1 t2 th1 th2 c r1 r2,
          singleflight.callers st !! t1 = Some th1 ->
          singleflight.callers st !! t2 = Some th2 ->
          singleflight.c_pc th1 = singleflight.Done c r1 ->
          singleflight.c_pc th2 = singleflight.Done c r2 -> r1 = r2) /\
      (Forall (fun th => exists c r, singleflight.c_pc th = singleflight.Done c r)
              (singleflight.callers st) ->
       length (singleflight.runs st) = length (singleflight.heap st)) /\
      (singleflight.deleted st = 0%nat ->
       (length (singleflight.runs st) <= 1)%nat /\
       forall t th c r,
         singleflight.callers st !! t = Some th ->
         singleflight.c_pc th = singleflight.Done c r -> c = 0%nat) /\
      (singleflight.deleted st <= length (singleflight.runs st))%nat /\
      (forall sched1 sched2 st1 t th1 th c r,
          sched = sched1 ++ sched2 ->
          singleflight.run zero sched1 (singleflight.init k fns w) = Some st1 ->
          singleflight.runs st1 = [] ->
          singleflight.callers st1 !! t = Some th1 ->
          singleflight.c_pc th1 <> singleflight.Enter ->
          singleflight.callers st !! t = Some th ->
          singleflight.c_pc th = singleflight.Done c r ->
          c = 0%nat /\ (0%nat, r) ∈ singleflight.runs st)).
Proof.
  split.
  - intros W g key w. apply Get_miss.
  - intros R W zero k fns w sched st Hrun.
    assert (Inv_sf k st) as HI
      by (eapply (run_Inv_sf zero k); [apply Inv_sf_init | done]).
    pose proof (Inv_sf_facts k st HI) as (H1 & H2 & H3 & H4 & H5 & H6 & H7).
    split_and!; try done; try lia.
    + by apply (deleted_le_runs k).
    + intros sched1 sched2 st1 t th1 th c r -> Hrun1 Hruns Ht1 Hne Ht Hpc.
      rewrite run_app, Hrun1 in Hrun. simpl in Hrun.
      by apply (first_generation zero k fns w sched1 sched2 st1 st t th1 th c r).
Qed.

(** Three callers of [Do("Tom", fn)], the second and third arriving while
    the first is inside [fn]: one execution, the same value for all. *)
Lemma C1_single_flight_witness :
  let fn := fun n : nat => (S n, S n) in
  let sched := [0; 0; 0; 0; 1; 1; 1; 2; 2; 2; 0; 0; 0; 0; 0; 0; 1; 1; 2; 2]%nat in
  exists st,
    singleflight.run 0%nat sched (singleflight.init "Tom" [fn; fn; fn] 0%nat)
      = Some st /\
    singleflight.c_pc <$> singleflight.callers st =
      [singleflight.Done 0 1%nat; singleflight.Done 0 1%nat;
       singleflight.Done 0 1%nat] /\
    singleflight.runs st = [(0%nat, 1%nat)] /\
    singleflight.world st = 1%nat /\
    NoDup (singleflight.runs st).*1 /\
    length (singleflight.runs st) = length (singleflight.heap st).
Proof.
  cbv zeta.
  assert (exists st,
            singleflight.run 0%nat
              [0; 0; 0; 0; 1; 1; 1; 2; 2; 2; 0; 0; 0; 0; 0; 0; 1; 1; 2; 2]%nat
              (singleflight.init "Tom"
                 [fun n : nat => (S n, S n); fun n : nat => (S n, S n);
                  fun n : nat => (S n, S n)] 0%nat) = Some st) as [st Hrun]
    by (eexists; vm_compute; reflexivity).
  destruct (proj2 C1_single_flight nat nat 0%nat "Tom" _ 0%nat _ st Hrun)
    as (Hnd & _ & _ & _ & _ & Hall & _).
  exists st. split; [done|].
  vm_compute in Hrun. injection Hrun as <-.
  split_and!; [reflexivity | reflexivity | reflexivity | exact Hnd |].
  apply Hall. repeat constructor; by do 2 eexists.
Defined.

End group_concurrency.
